(** * Katas (10-katas-1-tasks.js): compass points, brace expansion, stubs

    A shallow embedding of [src/task/10-katas-1-tasks.js].

    - JS numbers used as loop counters and array indices are [Z]; the
      azimuth, the only fractional number of the file, is an IEEE 754
      binary64 value ([float]), multiplied as the source multiplies it.
    - JS strings are [string]; a JS array that is written by index is a
      list of slots, a slot being [None] for a hole.
    - The objects built by [new getArray] and [new getVariants] form a tree;
      the only mutable field, [position], is threaded explicitly.
    - The characters the code compares with are ASCII; a string is read
      byte by byte, and no byte of a longer UTF-8 sequence is an ASCII one.
    - The two constructors are mutually recursive on strings; they and the
      loop of the generator take [fuel], and answer [None] when it runs out.
      That enough fuel always gives a result is proved below.
    - For two calls of [expandBraces] the variables [position] are kept in
      one store shared by all objects, and a generator is the object a call
      returns, stepped by its [next].
    - [throw] is the [Throw] constructor of [completion]. *)

From Stdlib Require Import ZArith QArith Floats Uint63 Ascii String.
From stdpp Require Import base option list strings.

Open Scope Z_scope.

(** ** JavaScript arrays written by index *)

Module JsArray.

(** [arr[k]]: [None] stands for [undefined] (a hole, or out of range). *)
Definition get {A} (arr : list (option A)) (k : Z) : option A :=
  if k <? 0 then None else mjoin (arr !! Z.to_nat k).

(** [arr[k] = v] for [0 <= k]: in range the slot is overwritten; out of
    range the array grows, the slots in between being holes. *)
Definition set {A} (arr : list (option A)) (k : Z) (v : A)
  : list (option A) :=
  let n := Z.to_nat k in
  if (n <? length arr)%nat
  then <[n := Some v]> arr
  else arr ++ replicate (n - length arr)%nat None ++ [Some v].

(** [arr.map(f)]: the callback is not called on holes, which stay holes. *)
Definition map {A B} (f : A → nat → B) (arr : list (option A))
  : list (option B) :=
  imap (λ i slot, (λ v, f v i) <$> slot) arr.

(** An array literal. *)
Definition lit {A} (l : list A) : list (option A) := Some <$> l.

End JsArray.

(** String concatenation where an operand may be [undefined]. *)
Definition str_of (o : option string) : string := default "undefined" o.

(** ** createCompassPoints *)

Record CompassPoint := {
  abbreviation : string;
  azimuth : float
}.

(** The number [i] of a [map] callback, as a binary64. *)
Definition num (i : nat) : float := of_uint63 (Uint63.of_Z (Z.of_nat i)).

Definition sides : list (option string) := JsArray.lit ["N"; "E"; "S"; "W"].

(** The body of the inner loop, for one [i] and one [j]. Both [i] and
    [posi] are indices of [sides], so that [str_of] never meets
    [undefined]. *)
Definition compass_step (i : Z) (result : list (option string)) (j : Z)
  : list (option string) :=
  let pos := Z.rem (i * 8 + j + 32) 32 in
  let posi := Z.rem (i + (if j <? 0 then -1 else 1) + 4) 4 in
  let ja := Z.abs j in
  let side_i := str_of (JsArray.get sides i) in
  let side_posi := str_of (JsArray.get sides posi) in
  let result := JsArray.set result pos side_i in
  if j =? 0 then result
  else
    JsArray.set result pos
      (str_of (JsArray.get result pos) +:+
       (if negb (Z.rem ja 2 =? 0)
        then (if ja >? 1 then side_posi else "") +:+ "b" +:+
             (if ja =? 3 then side_i else side_posi)
        else if ja =? 4
             then side_posi
             else if negb (Z.rem i 2 =? 0)
                  then side_posi +:+ side_i
                  else side_i +:+ side_posi)).

(** The body of the outer loop: [j] runs over [-from .. from]. *)
Definition compass_side (result : list (option string)) (i : Z)
  : list (option string) :=
  let from := if negb (Z.rem i 2 =? 0) then 2 else 5 in
  foldl (compass_step i) result (seqZ (- from) (2 * from + 1)).

Definition createCompassPoints : list (option CompassPoint) :=
  let result := foldl compass_side [] (seqZ 0 4) in
  JsArray.map
    (λ v i, {| abbreviation := v; azimuth := (num i * 11.25)%float |})
    result.

(** The abbreviations of the returned array, in order. *)
Definition abbreviations : list (option string) :=
  fmap (M := list) (fmap (M := option) abbreviation) createCompassPoints.

(** The rational number a finite binary64 stands for. *)
Definition float_value (f : float) : option Q :=
  match Prim2SF f with
  | S754_zero _ => Some 0%Q
  | S754_finite sign m e =>
      Some ((if sign then -1 else 1) * inject_Z (Z.pos m) * Qpower 2 e)%Q
  | _ => None
  end.

(** ** expandBraces: the objects *)

(** A member of the [values] array of a [getArray] object: either a string
    or a [getVariants] object, whose state is its own [values] array (one
    [getArray] object, that is its [values], for each alternative) and the
    counter [position]. *)
#[local] Unset Elimination Schemes.
Inductive item : Type :=
| Str (s : string)
| Variants (values : list (list item)) (position : nat).
#[local] Set Elimination Schemes.

(** The truth value of a string used as a condition. *)
Definition truthy (s : string) : bool :=
  match s with EmptyString => false | String _ _ => true end.

(** [value += c] *)
Definition push_char (value : string) (c : ascii) : string :=
  value +:+ String c "".

(** ** expandBraces: the constructors *)

(** The [for] loop of [getArray], from the character at hand to the end of
    [str]; [new_getVariants] is the constructor called on a closing brace. *)
Fixpoint getArray_loop (new_getVariants : string → option item)
    (str : string) (values : list item) (value : string) (skip : Z)
  : option (list item * string) :=
  match str with
  | EmptyString => Some (values, value)
  | String c str =>
      if Ascii.eqb c "}" then
        let skip := skip - 1 in
        if skip =? 0 then
          v ← new_getVariants value;
          getArray_loop new_getVariants str (values ++ [v]) "" skip
        else
          getArray_loop new_getVariants str values (push_char value c) skip
      else if Ascii.eqb c "{" then
        if skip =? 0 then
          let values := if truthy value then values ++ [Str value] else values in
          getArray_loop new_getVariants str values "" (skip + 1)
        else
          getArray_loop new_getVariants str values (push_char value c)
            (skip + 1)
      else
        getArray_loop new_getVariants str values (push_char value c) skip
  end.

(** The [for] loop of [getVariants]; [new_getArray] is [new getArray(_, true)]. *)
Fixpoint getVariants_loop (new_getArray : string → option (list item))
    (str : string) (values : list (list item)) (value : string) (skip : Z)
  : option (list (list item) * string) :=
  match str with
  | EmptyString => Some (values, value)
  | String c str =>
      if Ascii.eqb c "," && (skip =? 0) then
        a ← new_getArray value;
        getVariants_loop new_getArray str (values ++ [a]) "" skip
      else
        let value := push_char value c in
        let skip := if Ascii.eqb c "{" then skip + 1 else skip in
        let skip := if Ascii.eqb c "}" then skip - 1 else skip in
        getVariants_loop new_getArray str values value skip
  end.

(** The two constructors call each other on strings that do not get longer;
    [fuel] bounds the depth of these calls, and [None] is "out of fuel". *)
Fixpoint getArray (fuel : nat) (str : string) (addEmpty : bool)
  : option (list item) :=
  match fuel with
  | O => None
  | S fuel =>
      '(values, value) ← getArray_loop (getVariants fuel) str [] "" 0;
      Some (if truthy value || addEmpty
            then values ++ [Str value] else values)
  end
with getVariants (fuel : nat) (str : string) : option item :=
  match fuel with
  | O => None
  | S fuel =>
      '(values, value) ←
        getVariants_loop (λ s, getArray fuel s true) str [] "" 0;
      a ← getArray fuel value true;
      Some (Variants (values ++ [a]) 0)
  end.

(** ** expandBraces: the methods *)

(** [this.current] of a [getArray] object, given [current] on its members. *)
Definition getArray_current (current : item → option string)
    (values : list item) : option string :=
  foldl (λ result v, r ← result; s ← current v; Some (r +:+ s))
        (Some "") values.

(** [this.next] of a [getArray] object, given [next] on its members: the
    first member that answers [true] ends the loop. *)
Definition getArray_next (next : item → option (bool * item))
  : list item → option (bool * list item) :=
  fix go values :=
    match values with
    | [] => Some (false, [])
    | v :: values =>
        '(more, v) ← next v;
        if more : bool then Some (true, v :: values)
        else '(more, values) ← go values; Some (more, v :: values)
    end.

(** [v.current()] for a member [v]; a string stands for itself. Reading
    [values[position]] out of range gives [undefined], on which the method
    call throws: [None]. *)
Fixpoint current (v : item) : option string :=
  match v with
  | Str s => Some s
  | Variants values position =>
      mjoin ((getArray_current current <$> values) !! position)
  end.

(** [v.next()] for a member [v], with the new state of [v]; strings are
    skipped by the caller, here they answer [false]. *)
Fixpoint next (v : item) : option (bool * item) :=
  match v with
  | Str s => Some (false, Str s)
  | Variants values position =>
      '(more, a) ← mjoin ((getArray_next next <$> values) !! position);
      let values := <[position := a]> values in
      if more : bool then Some (true, Variants values position)
      else
        let position := S position in
        if (position <? length values)%nat
        then Some (true, Variants values position)
        else Some (false, Variants values 0%nat)
  end.

(** The methods of a [getArray] object. *)
Abbreviation array_current := (getArray_current current).
Abbreviation array_next := (getArray_next next).

(** The [do ... while] loop: the strings yielded from the state [arr] on. *)
Fixpoint drain (fuel : nat) (arr : list item) : option (list string) :=
  match fuel with
  | O => None
  | S fuel =>
      s ← array_current arr;
      '(more, arr) ← array_next arr;
      if more : bool then l ← drain fuel arr; Some (s :: l)
      else Some [s]
  end.

(** The sequence a consumer reads from [expandBraces(str)]. *)
Definition expandBraces (fuel : nat) (str : string) : option (list string) :=
  arr ← getArray fuel str false;
  drain fuel arr.

(** [expandBraces(str)] yields exactly [l]: any run with enough fuel does. *)
Definition yields (str : string) (l : list string) : Prop :=
  ∃ n : nat, ∀ fuel : nat, (n ≤ fuel)%nat → expandBraces fuel str = Some l.

(** ** The functions left as stubs *)

(** A JavaScript value, as far as arguments and results need it. *)
#[local] Unset Elimination Schemes.
Inductive value : Type :=
| Undefined
| Boolean (b : bool)
| Number (x : float)
| Text (s : string)
| Array (elements : list value).
#[local] Set Elimination Schemes.

(** How a call ends: it returns a value or throws an [Error]. *)
Inductive completion : Type :=
| Return (v : value)
| Throw (message : string).

Definition getZigZagMatrix (n : value) : completion :=
  Throw "Not implemented".

Definition canDominoesMakeRow (dominoes : value) : completion :=
  Throw "Not implemented".

Definition extractRanges (nums : value) : completion :=
  Throw "Not implemented".

(** * Definitions for the statements

    What follows is not in the source: the traces of the methods, the
    templates of the specification with their text, expansions and count,
    and the predicates the theorems are stated with. *)

(** ** Traces of [current] and [next] *)

Section steps.
Context {St : Type}.
Variable cur : St → option string.
Variable nxt : St → option (bool * St).

(** [steps s l s']: read from state [s], [current] gives the strings of [l]
    one [next] apart; the [next] after the last of them is the first to
    answer [false], and leaves the state [s']. *)
Inductive steps : St → list string → St → Prop :=
| steps_last s x s' :
    cur s = Some x → nxt s = Some (false, s') → steps s [x] s'
| steps_more s x s1 l s' :
    cur s = Some x → nxt s = Some (true, s1) → steps s1 l s' →
    steps s (x :: l) s'.

End steps.

(** Every [x +:+ y], the [x] of [xs] changing first. *)
Definition cross (xs ys : list string) : list string :=
  y ← ys; (λ x, x +:+ y) <$> xs.

Definition array_outputs_with (outputs : item → list string)
    (values : list item) : list string :=
  foldr (λ v acc, cross (outputs v) acc) [""] values.

(** The strings of a whole round of an object, whatever its state, in the
    order the code reaches them from the first state: the leftmost member
    of an array is the first to move, the alternatives of a [getVariants]
    object come one after the other. *)
Fixpoint outputs (v : item) : list string :=
  match v with
  | Str s => [s]
  | Variants values _ => concat (array_outputs_with outputs <$> values)
  end.

Abbreviation array_outputs := (array_outputs_with outputs).

(** An object as its constructor leaves it: every [position] is 0 and every
    [getVariants] object has at least one alternative. *)
Fixpoint is_fresh (v : item) : bool :=
  match v with
  | Str _ => true
  | Variants values position =>
      (position =? 0)%nat && negb (bool_decide (values = []))
      && forallb (forallb is_fresh) values
  end.

Definition is_fresh_array (values : list item) : bool :=
  forallb is_fresh values.

(** ** Strings without braces *)

Definition is_brace (c : ascii) : bool := Ascii.eqb c "{" || Ascii.eqb c "}".

Fixpoint no_braces (s : string) : bool :=
  match s with
  | EmptyString => true
  | String c s => negb (is_brace c) && no_braces s
  end.

(** ** Templates *)

(** A template, as the specification describes it: a sequence of pieces, a
    piece being literal text or a group of alternatives, each alternative a
    template again. *)
#[local] Unset Elimination Schemes.
Inductive piece : Type :=
| Lit (s : string)
| Group (alternatives : list (list piece)).
#[local] Set Elimination Schemes.

Fixpoint join_commas (l : list string) : string :=
  match l with
  | [] => ""
  | [s] => s
  | s :: l => s +:+ "," +:+ join_commas l
  end.

Definition render_template_with (render : piece → string) (t : list piece)
  : string :=
  foldr (λ p acc, render p +:+ acc) "" t.

(** The text of a piece: a group is written [{alt1,alt2,...}]. *)
Fixpoint render (p : piece) : string :=
  match p with
  | Lit s => s
  | Group alternatives =>
      "{" +:+ join_commas (render_template_with render <$> alternatives)
          +:+ "}"
  end.

Abbreviation render_template := (render_template_with render).

(** Every [x +:+ y], in the order of the pairs. *)
Definition product (xs ys : list string) : list string :=
  x ← xs; y ← ys; [x +:+ y].

Definition template_expansions_with (expansions : piece → list string)
    (t : list piece) : list string :=
  foldr (λ p acc, product (expansions p) acc) [""] t.

(** Every string obtained by choosing one alternative in each group, the
    literal text kept in place; an alternative written twice is chosen
    twice. *)
Fixpoint expansions (p : piece) : list string :=
  match p with
  | Lit s => [s]
  | Group alternatives =>
      concat (template_expansions_with expansions <$> alternatives)
  end.

Abbreviation template_expansions := (template_expansions_with expansions).

(** The number of outputs the specification states: the product over the
    groups of a template, a group counting the sum over its alternatives of
    the product over the groups nested in that alternative. *)
Definition template_count_with (count : piece → nat) (t : list piece) : nat :=
  foldr (λ p acc, count p * acc)%nat 1%nat t.

Fixpoint count (p : piece) : nat :=
  match p with
  | Lit _ => 1%nat
  | Group alternatives =>
      sum_list (template_count_with count <$> alternatives)
  end.

Abbreviation template_count := (template_count_with count).

Fixpoint no_commas (s : string) : bool :=
  match s with
  | EmptyString => true
  | String c s => negb (Ascii.eqb c ",") && no_commas s
  end.

(** A well-formed piece: literal text has no brace, and inside a group no
    comma either; a group has at least one alternative ([{}] has one, the
    empty template). *)
Fixpoint wf_piece (inner : bool) (p : piece) : bool :=
  match p with
  | Lit s => no_braces s && (negb inner || no_commas s)
  | Group alternatives =>
      negb (bool_decide (alternatives = []))
      && forallb (forallb (wf_piece true)) alternatives
  end.

Definition wf_template (t : list piece) : bool := forallb (wf_piece false) t.

(** The expansions of a template in the order of the code: the choice of
    the leftmost group changes first. *)
Definition template_odometer_with (odometer : piece → list string)
    (t : list piece) : list string :=
  foldr (λ p acc, cross (odometer p) acc) [""] t.

Fixpoint odometer (p : piece) : list string :=
  match p with
  | Lit s => [s]
  | Group alternatives =>
      concat (template_odometer_with odometer <$> alternatives)
  end.

Abbreviation template_odometer := (template_odometer_with odometer).

(** [plain_at commas depth s]: read at [depth] open braces, [s] closes them
    all and no more; unless [commas], its commas lie inside braces. *)
Fixpoint plain_at (commas : bool) (depth : nat) (s : string) : bool :=
  match s with
  | EmptyString => (depth =? 0)%nat
  | String c s =>
      if Ascii.eqb c "{" then plain_at commas (S depth) s
      else if Ascii.eqb c "}" then
        match depth with O => false | S depth => plain_at commas depth s end
      else if Ascii.eqb c "," then
        (commas || (0 <? depth)%nat) && plain_at commas depth s
      else plain_at commas depth s
  end.

(** ** Induction principles

    [piece] and [item] are nested in [list]: their induction principles
    give the property on every member of every inner list. *)

Section piece_ind.
Variable P : piece → Prop.
Hypothesis HLit : ∀ s, P (Lit s).
Hypothesis HGroup :
  ∀ alternatives, Forall (Forall P) alternatives → P (Group alternatives).

Definition piece_ind : ∀ p, P p :=
  fix piece_ind (p : piece) : P p :=
    match p with
    | Lit s => HLit s
    | Group alternatives =>
        HGroup alternatives
          ((fix templates (l : list (list piece)) : Forall (Forall P) l :=
              match l with
              | [] => @List.Forall_nil _ _
              | t :: l =>
                  @List.Forall_cons _ (Forall P) t l
                    ((fix pieces (t : list piece) : Forall P t :=
                        match t with
                        | [] => @List.Forall_nil _ _
                        | p :: t =>
                            @List.Forall_cons _ P p t (piece_ind p) (pieces t)
                        end) t)
                    (templates l)
              end) alternatives)
    end.
End piece_ind.

Section item_ind.
Variable P : item → Prop.
Hypothesis HStr : ∀ s, P (Str s).
Hypothesis HVariants :
  ∀ values position, Forall (Forall P) values → P (Variants values position).

Definition item_ind : ∀ v, P v :=
  fix item_ind (v : item) : P v :=
    match v with
    | Str s => HStr s
    | Variants values position =>
        HVariants values position
          ((fix arrays (l : list (list item)) : Forall (Forall P) l :=
              match l with
              | [] => @List.Forall_nil _ _
              | a :: l =>
                  @List.Forall_cons _ (Forall P) a l
                    ((fix members (a : list item) : Forall P a :=
                        match a with
                        | [] => @List.Forall_nil _ _
                        | v :: a =>
                            @List.Forall_cons _ P v a (item_ind v) (members a)
                        end) a)
                    (arrays l)
              end) values)
    end.
End item_ind.

(** What [getVariants] has to return on the text between the braces of a
    group: an object whose outputs are those of the group. *)
Definition group_parsed (mk : string → option item) (p : piece) : Prop :=
  match p with
  | Lit _ => True
  | Group alternatives =>
      ∀ v, mk (join_commas (render_template <$> alternatives)) = Some v →
           outputs v = odometer p
  end.

(** The braces of [s] are balanced. *)
Definition balanced (s : string) : bool := plain_at true 0 s.

(** ** Further definitions for the statements *)

(** [s] has no open brace. *)
Fixpoint no_open (s : string) : bool :=
  match s with
  | EmptyString => true
  | String c s => negb (Ascii.eqb c "{") && no_open s
  end.

(** The text of an object: a string stands for itself, a [getVariants]
    object for its alternatives between braces. *)
Definition array_text_with (text : item → string) (values : list item)
  : string :=
  foldr (λ v acc, text v +:+ acc) "" values.

Fixpoint item_text (v : item) : string :=
  match v with
  | Str s => s
  | Variants values _ =>
      "{" +:+ join_commas (array_text_with item_text <$> values) +:+ "}"
  end.

Abbreviation array_text := (array_text_with item_text).

(** What [getVariants] has to return on the text between the braces of a
    group, as to its text. *)
Definition group_text_parsed (mk : string → option item) (p : piece) : Prop :=
  match p with
  | Lit _ => True
  | Group alternatives =>
      ∀ v, mk (join_commas (render_template <$> alternatives)) = Some v →
           item_text v = render p
  end.

(** The opposite of a compass point: north and south, east and west
    exchanged. *)
Definition opposite_side (c : ascii) : ascii :=
  if Ascii.eqb c "N" then "S"%char
  else if Ascii.eqb c "S" then "N"%char
  else if Ascii.eqb c "E" then "W"%char
  else if Ascii.eqb c "W" then "E"%char
  else c.

Fixpoint opposite (s : string) : string :=
  match s with
  | EmptyString => EmptyString
  | String c s => String (opposite_side c) (opposite s)
  end.

(** ** expandBraces: two calls and the store of the positions *)

(** The state that outlives a constructor call is the variable [position] of
    each [getVariants] object: the arrays [values] are filled by the
    constructor and only read afterwards. To tell two calls of
    [expandBraces] apart these variables are kept in one store, shared by
    every object of the program: a [getVariants] object holds the location
    of its variable, where [Variants] above holds its value. *)
#[local] Unset Elimination Schemes.
Inductive obj : Type :=
| OStr (s : string)
| OVariants (values : list (list obj)) (position : nat).
#[local] Set Elimination Schemes.

(** [let position = 0]: a new variable, at the end of the store. *)
Definition new_variable (σ : list nat) : nat * list nat :=
  (length σ, σ ++ [0%nat]).

(** The loop of [getArray], the store passed along to the constructors it
    calls. *)
Fixpoint getArray_loop_in
    (new_getVariants : string → list nat → option (obj * list nat))
    (str : string) (values : list obj) (value : string) (skip : Z)
    (σ : list nat) : option (list obj * string * list nat) :=
  match str with
  | EmptyString => Some (values, value, σ)
  | String c str =>
      if Ascii.eqb c "}" then
        let skip := skip - 1 in
        if skip =? 0 then
          '(v, σ) ← new_getVariants value σ;
          getArray_loop_in new_getVariants str (values ++ [v]) "" skip σ
        else
          getArray_loop_in new_getVariants str values (push_char value c)
            skip σ
      else if Ascii.eqb c "{" then
        if skip =? 0 then
          let values :=
            if truthy value then values ++ [OStr value] else values in
          getArray_loop_in new_getVariants str values "" (skip + 1) σ
        else
          getArray_loop_in new_getVariants str values (push_char value c)
            (skip + 1) σ
      else
        getArray_loop_in new_getVariants str values (push_char value c)
          skip σ
  end.

(** The loop of [getVariants], likewise. *)
Fixpoint getVariants_loop_in
    (new_getArray : string → list nat → option (list obj * list nat))
    (str : string) (values : list (list obj)) (value : string) (skip : Z)
    (σ : list nat) : option (list (list obj) * string * list nat) :=
  match str with
  | EmptyString => Some (values, value, σ)
  | String c str =>
      if Ascii.eqb c "," && (skip =? 0) then
        '(a, σ) ← new_getArray value σ;
        getVariants_loop_in new_getArray str (values ++ [a]) "" skip σ
      else
        let value := push_char value c in
        let skip := if Ascii.eqb c "{" then skip + 1 else skip in
        let skip := if Ascii.eqb c "}" then skip - 1 else skip in
        getVariants_loop_in new_getArray str values value skip σ
  end.

(** The constructors; [getVariants] declares [position] before its loop. *)
Fixpoint getArray_in (fuel : nat) (str : string) (addEmpty : bool)
    (σ : list nat) : option (list obj * list nat) :=
  match fuel with
  | O => None
  | S fuel =>
      '(values, value, σ) ←
        getArray_loop_in (getVariants_in fuel) str [] "" 0 σ;
      Some (if truthy value || addEmpty
            then values ++ [OStr value] else values, σ)
  end
with getVariants_in (fuel : nat) (str : string) (σ : list nat)
  : option (obj * list nat) :=
  match fuel with
  | O => None
  | S fuel =>
      let '(position, σ) := new_variable σ in
      '(values, value, σ) ←
        getVariants_loop_in (λ s, getArray_in fuel s true) str [] "" 0 σ;
      '(a, σ) ← getArray_in fuel value true σ;
      Some (OVariants (values ++ [a]) position, σ)
  end.

(** [this.current] and [this.next] of a [getArray] object. *)
Definition getArray_current_in (current : obj → option string)
    (values : list obj) : option string :=
  foldl (λ result v, r ← result; s ← current v; Some (r +:+ s))
        (Some "") values.

Definition getArray_next_in
    (next : obj → list nat → option (bool * list nat))
  : list obj → list nat → option (bool * list nat) :=
  fix go values σ :=
    match values with
    | [] => Some (false, σ)
    | v :: values =>
        '(more, σ) ← next v σ;
        if more : bool then Some (true, σ) else go values σ
    end.

(** [v.current()]: [position] is read from the store. *)
Fixpoint current_in (σ : list nat) (v : obj) : option string :=
  match v with
  | OStr s => Some s
  | OVariants values position =>
      p ← σ !! position;
      mjoin ((getArray_current_in (current_in σ) <$> values) !! p)
  end.

(** [v.next()]: [position] is read for [values[position]], read and
    written by [position++], read again by the comparison and written by
    [position = 0]. *)
Fixpoint next_in (v : obj) (σ : list nat) : option (bool * list nat) :=
  match v with
  | OStr s => Some (false, σ)
  | OVariants values position =>
      p ← σ !! position;
      '(more, σ) ←
        mjoin (((λ a, getArray_next_in next_in a σ) <$> values) !! p);
      if more : bool then Some (true, σ)
      else
        p ← σ !! position;
        let σ := <[position := S p]> σ in
        p ← σ !! position;
        if (p <? length values)%nat
        then Some (true, σ)
        else Some (false, <[position := 0%nat]> σ)
  end.

Abbreviation array_current_in σ := (getArray_current_in (current_in σ)).
Abbreviation array_next_in := (getArray_next_in next_in).

(** The object a call [expandBraces(str)] returns: its body has not
    started, or it is suspended at the [yield] with its variable [arr], or
    it has returned. *)
Inductive generator : Type :=
| Created (str : string)
| Suspended (arr : list obj)
| Finished.

(** [g.next()]: the value yielded, or [None] when the generator is done. *)
Definition generator_next (fuel : nat) (g : generator) (σ : list nat)
  : option (option string * generator * list nat) :=
  match g with
  | Created str =>
      '(arr, σ) ← getArray_in fuel str false σ;
      s ← array_current_in σ arr;
      Some (Some s, Suspended arr, σ)
  | Suspended arr =>
      '(more, σ) ← array_next_in arr σ;
      if more : bool then
        s ← array_current_in σ arr;
        Some (Some s, Suspended arr, σ)
      else Some (None, Finished, σ)
  | Finished => Some (None, Finished, σ)
  end.

(** Two generators in one store, their [next] called in the order of
    [schedule] ([true] for the first generator): the results each gave. *)
Fixpoint run_two (fuel : nat) (schedule : list bool)
    (g1 g2 : generator) (σ : list nat)
  : option (list (option string) * list (option string)) :=
  match schedule with
  | [] => Some ([], [])
  | first :: schedule =>
      if first : bool then
        '(r, g1, σ) ← generator_next fuel g1 σ;
        '(r1, r2) ← run_two fuel schedule g1 g2 σ;
        Some (r :: r1, r2)
      else
        '(r, g2, σ) ← generator_next fuel g2 σ;
        '(r1, r2) ← run_two fuel schedule g1 g2 σ;
        Some (r1, r :: r2)
  end.

(** The calls of [next] on one of the two generators. *)
Fixpoint calls (first : bool) (schedule : list bool) : nat :=
  match schedule with
  | [] => 0%nat
  | b :: schedule =>
      ((if Bool.eqb b first then 1 else 0) + calls first schedule)%nat
  end.

(** The first [k] results of [next] on a generator that yields [l]: the
    strings of [l], then done. *)
Fixpoint results (l : list string) (k : nat) : list (option string) :=
  match k with
  | O => []
  | S k =>
      match l with
      | [] => None :: results [] k
      | s :: l => Some s :: results l k
      end
  end.

(** The variables of an object, and the object with the positions read
    from the store. *)
Definition array_cells_with (cells : obj → list nat) (a : list obj)
  : list nat :=
  concat (cells <$> a).

Fixpoint cells (v : obj) : list nat :=
  match v with
  | OStr _ => []
  | OVariants values position =>
      position :: concat (array_cells_with cells <$> values)
  end.

Abbreviation array_cells := (array_cells_with cells).

Fixpoint erase (σ : list nat) (v : obj) : item :=
  match v with
  | OStr s => Str s
  | OVariants values position =>
      Variants (fmap (M := list) (erase σ) <$> values)
               (default 0%nat (σ !! position))
  end.

Section obj_ind.
Variable P : obj → Prop.
Hypothesis HOStr : ∀ s, P (OStr s).
Hypothesis HOVariants :
  ∀ values position, Forall (Forall P) values → P (OVariants values position).

Definition obj_ind : ∀ v, P v :=
  fix obj_ind (v : obj) : P v :=
    match v with
    | OStr s => HOStr s
    | OVariants values position =>
        HOVariants values position
          ((fix arrays (l : list (list obj)) : Forall (Forall P) l :=
              match l with
              | [] => @List.Forall_nil _ _
              | a :: l =>
                  @List.Forall_cons _ (Forall P) a l
                    ((fix members (a : list obj) : Forall P a :=
                        match a with
                        | [] => @List.Forall_nil _ _
                        | v :: a =>
                            @List.Forall_cons _ P v a (obj_ind v) (members a)
                        end) a)
                    (arrays l)
              end) values)
    end.
End obj_ind.

(** The variables an object owns: allocated, and no two the same. *)
Definition owned (σ : list nat) (cs : list nat) : Prop :=
  Forall (λ c, (c < length σ)%nat) cs ∧ NoDup cs.

(** [next] in the store does what [next] does on the object with its
    positions, and writes the variables of the object only. *)
Definition next_simulated {T U : Type} (cs : T → list nat)
    (erased : list nat → T → U)
    (step_in : T → list nat → option (bool * list nat))
    (step : U → option (bool * U)) (v : T) : Prop :=
  ∀ σ, owned σ (cs v) →
    match step_in v σ with
    | Some (more, σ') =>
        step (erased σ v) = Some (more, erased σ' v) ∧
        length σ' = length σ ∧
        ∀ c, c ∉ cs v → σ' !! c = σ !! c
    | None => step (erased σ v) = None
    end.

(** The variables of a generator: those of its [arr]. *)
Definition generator_cells (g : generator) : list nat :=
  match g with
  | Suspended arr => array_cells arr
  | _ => []
  end.

(** A generator in the store that has still to give the strings of
    [pending]: not started, it has all its outputs to give; suspended, its
    objects are in a round of which the string last yielded and [pending]
    are the rest. *)
Definition generator_pending (fuel : nat) (σ : list nat) (g : generator)
    (pending : list string) : Prop :=
  match g with
  | Created str =>
      ∃ arr, getArray fuel str false = Some arr ∧
             pending = array_outputs arr
  | Suspended arr =>
      owned σ (array_cells arr) ∧
      ∃ x e, steps array_current array_next (erase σ <$> arr)
                   (x :: pending) e
  | Finished => pending = []
  end.

(** The first combination of a template: in every group the alternative
    written first. *)
Definition template_first_with (first : piece → string) (t : list piece)
  : string :=
  foldr (λ p acc, first p +:+ acc) "" t.

Fixpoint first_choice (p : piece) : string :=
  match p with
  | Lit s => s
  | Group alternatives =>
      match alternatives with
      | [] => ""
      | t :: _ => template_first_with first_choice t
      end
  end.

Abbreviation template_first := (template_first_with first_choice).

(** * Proofs *)

(** ** Theorems: compass *)

Lemma compass_entries (i : nat) :
  (i < 32)%nat →
  ∃ p, createCompassPoints !! i = Some (Some p) ∧
       azimuth p = (num i * 11.25)%float ∧
       ∃ q, float_value (azimuth p) = Some q ∧
            Qeq q (inject_Z (Z.of_nat i) * (1125 # 100)).
Proof.
  intros Hi.
  do 32 (destruct i as [|i];
         [eexists; split; [vm_compute; reflexivity|];
          split; [vm_compute; reflexivity|];
          eexists; split; vm_compute; reflexivity |]).
  lia.
Qed.

(** C5: [createCompassPoints()] has exactly 32 entries, none of them a
    hole; the entry at index [i] has azimuth [i * 11.25], a product that
    binary64 computes without rounding (its value is the rational
    [i * 1125 / 100]); the entries at 0, 8, 16 and 24 are N 0, E 90, S 180
    and W 270, and the last entry has azimuth 348.75. *)
Theorem createCompassPoints_azimuths :
  length createCompassPoints = 32%nat ∧
  (∀ i : nat, (i < 32)%nat →
     ∃ p, createCompassPoints !! i = Some (Some p) ∧
          azimuth p = (num i * 11.25)%float ∧
          ∃ q, float_value (azimuth p) = Some q ∧
               Qeq q (inject_Z (Z.of_nat i) * (1125 # 100))) ∧
  createCompassPoints !! 0%nat =
    Some (Some {| abbreviation := "N"; azimuth := 0%float |}) ∧
  createCompassPoints !! 8%nat =
    Some (Some {| abbreviation := "E"; azimuth := 90%float |}) ∧
  createCompassPoints !! 16%nat =
    Some (Some {| abbreviation := "S"; azimuth := 180%float |}) ∧
  createCompassPoints !! 24%nat =
    Some (Some {| abbreviation := "W"; azimuth := 270%float |}) ∧
  (azimuth <$> mjoin (last createCompassPoints)) = Some 348.75%float.
Proof.
  split; [vm_compute; reflexivity|].
  split.
  - exact compass_entries.
  - do 4 (split; [vm_compute; reflexivity|]). vm_compute; reflexivity.
Qed.

(** C6 as stated fails: index 4 holds "NE" and index 5 holds "NEbE". *)
Lemma compass_index_4_5_not_NNE_NEbN :
  ¬ (abbreviations !! 1%nat = Some (Some "NbE") ∧
     abbreviations !! 4%nat = Some (Some "NNE") ∧
     abbreviations !! 5%nat = Some (Some "NEbN") ∧
     abbreviations !! 6%nat ≠ Some (Some "NEbE")).
Proof. vm_compute. intros (_ & H & _). discriminate H. Qed.

(** C6, amended: the first seven abbreviations are those of the standard
    32-point table, N, NbE, NNE, NEbN, NE, NEbE, ENE: "NbE" is at index 1,
    "NNE" at index 2, "NEbN" at index 3, "NEbE" at index 5, and index 6
    holds "ENE", not "NEbE". *)
Theorem compass_first_octant :
  take 7 abbreviations =
    Some <$> ["N"; "NbE"; "NNE"; "NEbN"; "NE"; "NEbE"; "ENE"] ∧
  abbreviations !! 6%nat ≠ Some (Some "NEbE").
Proof. split; [vm_compute; reflexivity | vm_compute; discriminate]. Qed.

(** ** Strings *)

Section strings.
Implicit Types s t u : string.

Lemma string_app_nil_l s : "" +:+ s = s.
Proof. reflexivity. Qed.

Lemma string_app_cons c s t : String c s +:+ t = String c (s +:+ t).
Proof. reflexivity. Qed.

Lemma string_app_nil_r s : s +:+ "" = s.
Proof. induction s as [|c s IH]; [done|]. by rewrite string_app_cons, IH. Qed.

Lemma string_app_assoc s t u : (s +:+ t) +:+ u = s +:+ (t +:+ u).
Proof. induction s as [|c s IH]; [done|]. by rewrite !string_app_cons, IH. Qed.

Lemma string_app_length s t :
  String.length (s +:+ t) = (String.length s + String.length t)%nat.
Proof. induction s as [|c s IH]; [done|]. rewrite string_app_cons. cbn. by rewrite IH. Qed.

Lemma push_char_app s t c : push_char (s +:+ t) c = s +:+ push_char t c.
Proof. apply string_app_assoc. Qed.

Lemma push_char_length s c :
  String.length (push_char s c) = S (String.length s).
Proof. unfold push_char. rewrite string_app_length. cbn. lia. Qed.

Lemma app_push_char s c t : push_char s c +:+ t = s +:+ String c t.
Proof. unfold push_char. by rewrite string_app_assoc. Qed.

End strings.

(** ** The methods, unfolded *)

Lemma current_Variants values position :
  current (Variants values position) =
    a ← values !! position; array_current a.
Proof. cbn. rewrite list_lookup_fmap. by destruct (values !! position). Qed.

Lemma next_Variants values position :
  next (Variants values position) =
    a ← values !! position;
    '(more, a) ← array_next a;
    let values := <[position := a]> values in
    if more : bool then Some (true, Variants values position)
    else if (S position <? length values)%nat
         then Some (true, Variants values (S position))
         else Some (false, Variants values 0%nat).
Proof. cbn. rewrite list_lookup_fmap. by destruct (values !! position). Qed.

Lemma foldl_current (r : string) (values : list item) :
  foldl (λ result v, r ← result; s ← current v; Some (r +:+ s))
        (Some r) values
  = s ← array_current values; Some (r +:+ s).
Proof.
  revert r. induction values as [|v values IH]; intros r.
  - cbn. by rewrite string_app_nil_r.
  - unfold getArray_current. cbn. destruct (current v) as [x|]; cbn.
    + rewrite !IH. destruct (array_current values) as [y|]; cbn; [|done].
      by rewrite string_app_assoc.
    + clear IH. induction values as [|w values IH]; [done|]. apply IH.
Qed.

Lemma array_current_nil : array_current [] = Some "".
Proof. done. Qed.

Lemma array_current_cons v values :
  array_current (v :: values) =
    x ← current v; y ← array_current values; Some (x +:+ y).
Proof.
  unfold getArray_current at 1. cbn. destruct (current v) as [x|]; cbn.
  - apply foldl_current.
  - induction values as [|w values IH]; [done|]. apply IH.
Qed.

Lemma array_next_cons v values :
  array_next (v :: values) =
    '(more, v) ← next v;
    if more : bool then Some (true, v :: values)
    else '(more, values) ← array_next values; Some (more, v :: values).
Proof. done. Qed.

Lemma cross_cons xs y ys :
  cross xs (y :: ys) = ((λ x, x +:+ y) <$> xs) ++ cross xs ys.
Proof. done. Qed.

Lemma cross_nil_r xs : cross xs [] = [].
Proof. done. Qed.

Lemma array_steps_nil : steps array_current array_next [] [""] [].
Proof. by apply steps_last. Qed.

(** One round of the first member [v] while the rest of the array stands
    still at [y]. *)
Lemma array_steps_head v xs v0 rest y :
  steps current next v xs v0 →
  array_current rest = Some y →
  (∀ rest', array_next rest = Some (false, rest') →
     steps array_current array_next (v :: rest)
           ((λ x, x +:+ y) <$> xs) (v0 :: rest')) ∧
  (∀ rest1 l e, array_next rest = Some (true, rest1) →
     steps array_current array_next (v0 :: rest1) l e →
     steps array_current array_next (v :: rest)
           (((λ x, x +:+ y) <$> xs) ++ l) e).
Proof.
  intros Hv Hy. induction Hv as [v x v0 Hc Hn | v x v1 xs v0 Hc Hn _ [IH1 IH2]].
  - split.
    + intros rest' Hr. apply steps_last.
      * by rewrite array_current_cons, Hc, Hy.
      * by rewrite array_next_cons, Hn; cbn; rewrite Hr.
    + intros rest1 l e Hr Hl. cbn. eapply steps_more; [| |exact Hl].
      * by rewrite array_current_cons, Hc, Hy.
      * by rewrite array_next_cons, Hn; cbn; rewrite Hr.
  - split.
    + intros rest' Hr. cbn. eapply steps_more; [| |by apply IH1].
      * by rewrite array_current_cons, Hc, Hy.
      * by rewrite array_next_cons, Hn.
    + intros rest1 l e Hr Hl. cbn. eapply steps_more; [| |by eapply IH2].
      * by rewrite array_current_cons, Hc, Hy.
      * by rewrite array_next_cons, Hn.
Qed.

(** A member that comes back to its first state after each round, in front
    of an array that steps through [ys]. *)
Lemma array_steps_cons v xs rest ys rest' :
  steps current next v xs v →
  steps array_current array_next rest ys rest' →
  steps array_current array_next (v :: rest) (cross xs ys) (v :: rest').
Proof.
  intros Hv Hr. induction Hr as [rest y rest' Hc Hn | rest y rest1 ys rest' Hc Hn _ IH].
  - rewrite cross_cons, cross_nil_r, app_nil_r.
    by apply (array_steps_head v xs v rest y Hv Hc).
  - rewrite cross_cons.
    by eapply (array_steps_head v xs v rest y Hv Hc).
Qed.

(** One alternative of a [getVariants] object, from the state [a] of that
    alternative to the [next] that leaves it. *)
Lemma variants_steps_alternative values p a xs a0 :
  steps array_current array_next a xs a0 →
  (p < length values)%nat →
  ((S p < length values)%nat → ∀ l e,
     steps current next (Variants (<[p := a0]> values) (S p)) l e →
     steps current next (Variants (<[p := a]> values) p) (xs ++ l) e) ∧
  (¬ (S p < length values)%nat →
     steps current next (Variants (<[p := a]> values) p) xs
           (Variants (<[p := a0]> values) 0)).
Proof.
  intros Ha Hp.
  assert (Hcur : ∀ b x, array_current b = Some x →
            current (Variants (<[p := b]> values) p) = Some x).
  { intros b x Hb. by rewrite current_Variants, list_lookup_insert_eq. }
  assert (Hnxt : ∀ b more b',
            array_next b = Some (more, b') →
            next (Variants (<[p := b]> values) p) =
              if more : bool then Some (true, Variants (<[p := b']> values) p)
              else if (S p <? length values)%nat
                   then Some (true, Variants (<[p := b']> values) (S p))
                   else Some (false, Variants (<[p := b']> values) 0%nat)).
  { intros b more b' Hb.
    rewrite next_Variants, list_lookup_insert_eq by done. cbn.
    rewrite Hb. cbn. by rewrite list_insert_insert_eq, length_insert. }
  induction Ha as [a x a0 Hc Hn | a x a1 xs a0 Hc Hn _ [IH1 IH2]].
  - split.
    + intros Hlt l e Hl. cbn. eapply steps_more; [by apply Hcur| |exact Hl].
      rewrite (Hnxt _ _ _ Hn). by apply Nat.ltb_lt in Hlt as ->.
    + intros Hge. apply steps_last; [by apply Hcur|].
      rewrite (Hnxt _ _ _ Hn). by apply Nat.ltb_nlt in Hge as ->.
  - split.
    + intros Hlt l e Hl. cbn. eapply steps_more; [by apply Hcur| |by apply IH1].
      by rewrite (Hnxt _ _ _ Hn).
    + intros Hge. eapply steps_more; [by apply Hcur| |by apply IH2].
      by rewrite (Hnxt _ _ _ Hn).
Qed.

(** A [getVariants] object whose alternatives all come back to their first
    state: from [position = p] it goes through the alternatives from [p]
    on, and is left at [position = 0]. *)
Lemma variants_steps_from values p :
  Forall (λ a, steps array_current array_next a (array_outputs a) a) values →
  (p < length values)%nat →
  steps current next (Variants values p)
        (concat (array_outputs <$> drop p values)) (Variants values 0).
Proof.
  intros Hall. remember (length values - p)%nat as k eqn:Hk.
  revert p Hk. induction k as [|k IH]; intros p Hk Hp; [lia|].
  destruct (lookup_lt_is_Some_2 values p Hp) as [a Ha].
  assert (Hsteps : steps array_current array_next a (array_outputs a) a).
  { by eapply (proj1 (Forall_lookup _ _) Hall). }
  rewrite (drop_S _ _ _ Ha). cbn.
  destruct (variants_steps_alternative values p a _ a Hsteps Hp) as [H1 H2].
  rewrite !list_insert_id in H1, H2 by done.
  destruct (decide (S p < length values)%nat) as [Hlt|Hge].
  - apply H1; [done|]. apply IH; [lia|done].
  - rewrite drop_ge by lia. cbn. rewrite app_nil_r. by apply H2.
Qed.

Lemma is_fresh_Variants values position :
  is_fresh (Variants values position) = true ↔
  position = 0%nat ∧ values ≠ [] ∧
  Forall (Forall (λ v, is_fresh v = true)) values.
Proof.
  cbn. rewrite !andb_true_iff, Nat.eqb_eq, negb_true_iff, bool_decide_eq_false.
  rewrite forallb_forall, Forall_forall.
  split.
  - intros [[H0 Hne] H]. repeat split; [done..|]. intros a Ha.
    apply Forall_forall. intros v Hv.
    by eapply (proj1 (forallb_forall _ _) (H a (proj1 (list_elem_of_In _ _) Ha))),
      list_elem_of_In.
  - intros (H0 & Hne & H). repeat split; [done..|]. intros a Ha.
    apply forallb_forall. intros v Hv.
    by eapply (proj1 (Forall_forall _ _) (H a (proj2 (list_elem_of_In _ _) Ha))),
      list_elem_of_In.
Qed.

(** A round of a fresh object yields [outputs] and leaves it fresh again. *)
Lemma fresh_array_steps_with (values : list item) :
  Forall (λ v, is_fresh v = true → steps current next v (outputs v) v) values →
  Forall (λ v, is_fresh v = true) values →
  steps array_current array_next values (array_outputs values) values.
Proof.
  induction 1 as [|v values Hv _ IH]; intros Hf.
  - apply array_steps_nil.
  - apply Forall_cons in Hf as [Hfv Hf].
    apply array_steps_cons; [by apply Hv | by apply IH].
Qed.

Lemma fresh_steps (v : item) :
  is_fresh v = true → steps current next v (outputs v) v.
Proof.
  induction v as [s | values position IH] using item_ind; intros Hf.
  - by apply steps_last.
  - apply is_fresh_Variants in Hf as (-> & Hne & Hf).
    change (outputs (Variants values 0))
      with (concat (array_outputs <$> drop 0 values)).
    apply variants_steps_from; [|destruct values; [done|cbn; lia]].
    apply Forall_forall. intros a Ha.
    apply fresh_array_steps_with.
    + by apply (proj1 (Forall_forall _ _) IH).
    + by apply (proj1 (Forall_forall _ _) Hf).
Qed.

Lemma fresh_array_steps (values : list item) :
  is_fresh_array values = true →
  steps array_current array_next values (array_outputs values) values.
Proof.
  intros Hf. apply fresh_array_steps_with.
  - apply Forall_forall. intros v _. apply fresh_steps.
  - apply Forall_forall. intros v Hv.
    by apply (proj1 (forallb_forall _ _) Hf), list_elem_of_In.
Qed.

(** The loop of [expandBraces] reads a trace to its end. *)
Lemma drain_steps arr l arr' fuel :
  steps array_current array_next arr l arr' →
  (length l ≤ fuel)%nat →
  drain fuel arr = Some l.
Proof.
  intros H. revert fuel.
  induction H as [arr x arr' Hc Hn | arr x arr1 l arr' Hc Hn _ IH];
    intros [|fuel] Hfuel; cbn in Hfuel; try lia.
  - cbn. rewrite Hc. cbn. by rewrite Hn.
  - cbn. rewrite Hc. cbn. rewrite Hn. cbn. rewrite IH by lia. done.
Qed.

Lemma drain_fresh arr fuel :
  is_fresh_array arr = true →
  (length (array_outputs arr) ≤ fuel)%nat →
  drain fuel arr = Some (array_outputs arr).
Proof. intros Hf. by apply drain_steps with arr, fresh_array_steps. Qed.

(** ** The constructors return, on every string *)

Section loops.
Implicit Types (str value : string) (skip : Z).

Lemma getArray_loop_Some mk str values value skip (n : nat) :
  (∀ s, (String.length s < n)%nat → is_Some (mk s)) →
  (String.length value + String.length str ≤ n)%nat →
  is_Some (getArray_loop mk str values value skip).
Proof.
  intros Hmk. revert values value skip.
  induction str as [|c str IH]; intros values value skip Hn; [by eexists|].
  cbn in Hn. cbn.
  repeat case_match; try (apply IH; rewrite ?push_char_length; cbn; lia).
  destruct (Hmk value) as [v ->]; [lia|]. cbn. apply IH. cbn. lia.
Qed.

Lemma getVariants_loop_Some mk str values value skip (n : nat) :
  (∀ s, (String.length s < n)%nat → is_Some (mk s)) →
  (String.length value + String.length str ≤ n)%nat →
  ∃ values' value',
    getVariants_loop mk str values value skip = Some (values', value') ∧
    (String.length value' ≤ n)%nat.
Proof.
  intros Hmk. revert values value skip.
  induction str as [|c str IH]; intros values value skip Hn.
  { exists values, value. split; [done|lia]. }
  cbn in Hn. cbn. case_match.
  - destruct (Hmk value) as [a ->]; [lia|]. cbn. apply IH. cbn. lia.
  - apply IH. rewrite push_char_length. lia.
Qed.

Lemma getArray_loop_mono mk mk' str values value skip r :
  (∀ s v, mk s = Some v → mk' s = Some v) →
  getArray_loop mk str values value skip = Some r →
  getArray_loop mk' str values value skip = Some r.
Proof.
  intros Hmk. revert values value skip.
  induction str as [|c str IH]; intros values value skip; [done|].
  cbn. repeat case_match; try apply IH.
  destruct (mk value) as [v|] eqn:Hv; [|done].
  rewrite (Hmk _ _ Hv). cbn. apply IH.
Qed.

Lemma getVariants_loop_mono mk mk' str values value skip r :
  (∀ s a, mk s = Some a → mk' s = Some a) →
  getVariants_loop mk str values value skip = Some r →
  getVariants_loop mk' str values value skip = Some r.
Proof.
  intros Hmk. revert values value skip.
  induction str as [|c str IH]; intros values value skip; [done|].
  cbn. case_match; [|apply IH].
  destruct (mk value) as [a|] eqn:Ha; [|done].
  rewrite (Hmk _ _ Ha). cbn. apply IH.
Qed.

Lemma is_fresh_array_snoc values v :
  is_fresh_array (values ++ [v]) = is_fresh_array values && is_fresh v.
Proof. unfold is_fresh_array. rewrite forallb_app. cbn. by rewrite andb_true_r. Qed.

Lemma getArray_loop_fresh mk str values value skip values' value' :
  (∀ s v, mk s = Some v → is_fresh v = true) →
  is_fresh_array values = true →
  getArray_loop mk str values value skip = Some (values', value') →
  is_fresh_array values' = true.
Proof.
  intros Hmk. revert values value skip.
  induction str as [|c str IH]; intros values value skip Hf; [by intros [= <- _]|].
  cbn. repeat case_match; try (by apply IH).
  - destruct (mk value) as [v|] eqn:Hv; [|done]. cbn. apply IH.
    rewrite is_fresh_array_snoc, Hf. by eapply Hmk.
  - apply IH. by rewrite is_fresh_array_snoc, Hf.
Qed.

Lemma getVariants_loop_fresh mk str values value skip values' value' :
  (∀ s a, mk s = Some a → is_fresh_array a = true) →
  forallb is_fresh_array values = true →
  getVariants_loop mk str values value skip = Some (values', value') →
  forallb is_fresh_array values' = true.
Proof.
  intros Hmk. revert values value skip.
  induction str as [|c str IH]; intros values value skip Hf; [by intros [= <- _]|].
  cbn. case_match; [|by apply IH].
  destruct (mk value) as [a|] eqn:Ha; [|done]. cbn. apply IH.
  rewrite forallb_app, Hf. cbn. by rewrite (Hmk _ _ Ha).
Qed.

End loops.

(** Fuel enough for a string: twice its length, and one or two more. *)
Lemma constructors_Some (fuel : nat) :
  ∀ str,
    (∀ addEmpty, (2 * String.length str + 1 ≤ fuel)%nat →
       is_Some (getArray fuel str addEmpty)) ∧
    ((2 * String.length str + 2 ≤ fuel)%nat → is_Some (getVariants fuel str)).
Proof.
  induction fuel as [|fuel IH]; intros str; [split; [intros ?|]; lia|].
  split.
  - intros addEmpty Hfuel. cbn.
    destruct (getArray_loop_Some (getVariants fuel) str [] "" 0
                (String.length str)) as [[values value] ->]; [|done|by eexists].
    intros s Hs. apply IH. lia.
  - intros Hfuel. cbn.
    destruct (getVariants_loop_Some (λ s, getArray fuel s true) str [] "" 0
                (String.length str)) as (values & value & -> & Hlen); [|done|].
    { intros s Hs. apply IH. lia. }
    cbn. destruct (proj1 (IH value) true) as [a ->]; [lia|]. by eexists.
Qed.

Lemma constructors_mono (fuel : nat) :
  ∀ fuel', (fuel ≤ fuel')%nat →
    (∀ str addEmpty a, getArray fuel str addEmpty = Some a →
       getArray fuel' str addEmpty = Some a) ∧
    (∀ str v, getVariants fuel str = Some v → getVariants fuel' str = Some v).
Proof.
  induction fuel as [|fuel IH]; intros fuel' Hle; [done|].
  destruct fuel' as [|fuel']; [lia|].
  destruct (IH fuel') as [IHa IHv]; [lia|]. split.
  - intros str addEmpty a. cbn.
    destruct (getArray_loop (getVariants fuel) str [] "" 0)
      as [[values value]|] eqn:Hloop; [|done].
    by rewrite (getArray_loop_mono _ (getVariants fuel') _ _ _ _ _ IHv Hloop).
  - intros str v. cbn.
    destruct (getVariants_loop (λ s, getArray fuel s true) str [] "" 0)
      as [[values value]|] eqn:Hloop; [|done].
    rewrite (getVariants_loop_mono _ (λ s, getArray fuel' s true) _ _ _ _ _
               (λ s a, IHa s true a) Hloop). cbn.
    destruct (getArray fuel value true) as [a|] eqn:Ha; [|done].
    by rewrite (IHa _ _ _ Ha).
Qed.

Lemma constructors_fresh (fuel : nat) :
  (∀ str addEmpty a, getArray fuel str addEmpty = Some a →
     is_fresh_array a = true) ∧
  (∀ str v, getVariants fuel str = Some v → is_fresh v = true).
Proof.
  induction fuel as [|fuel [IHa IHv]]; [done|]. split.
  - intros str addEmpty a. cbn.
    destruct (getArray_loop (getVariants fuel) str [] "" 0)
      as [[values value]|] eqn:Hloop; [|done].
    apply getArray_loop_fresh in Hloop; [|done..].
    cbn. intros [= <-]. case_match; [|done].
    by rewrite is_fresh_array_snoc, Hloop.
  - intros str v. cbn.
    destruct (getVariants_loop (λ s, getArray fuel s true) str [] "" 0)
      as [[values value]|] eqn:Hloop; [|done].
    apply getVariants_loop_fresh in Hloop; [|by eauto|done].
    cbn. destruct (getArray fuel value true) as [a|] eqn:Ha; [|done].
    cbn. intros [= <-]. apply is_fresh_Variants.
    split; [done|]. split; [by destruct values|].
    apply Forall_app. split.
    + apply Forall_forall. intros b Hb. apply Forall_forall. intros w Hw.
      apply list_elem_of_In in Hb, Hw.
      apply (proj1 (forallb_forall _ _) Hloop) in Hb.
      by apply (proj1 (forallb_forall _ _) Hb).
    + apply Forall_singleton, Forall_forall. intros w Hw.
      apply list_elem_of_In in Hw.
      by apply (proj1 (forallb_forall _ _) (IHa _ _ _ Ha)).
Qed.

(** [new getArray(str, addEmpty)] returns, and what it returns is fresh. *)
Lemma getArray_returns str addEmpty :
  ∃ arr, is_fresh_array arr = true ∧
    ∀ fuel, (2 * String.length str + 1 ≤ fuel)%nat →
      getArray fuel str addEmpty = Some arr.
Proof.
  destruct (proj1 (constructors_Some (2 * String.length str + 1) str)
              addEmpty) as [arr Harr]; [done|].
  exists arr. split; [by eapply constructors_fresh|].
  intros fuel Hfuel. by eapply constructors_mono.
Qed.

(** ** The generator returns, on every string *)

Lemma drain_mono arr l fuel fuel' :
  (fuel ≤ fuel')%nat → drain fuel arr = Some l → drain fuel' arr = Some l.
Proof.
  revert arr l fuel'. induction fuel as [|fuel IH]; intros arr l fuel' Hle; [done|].
  destruct fuel' as [|fuel']; [lia|]. cbn.
  destruct (array_current arr) as [s|]; [|done]. cbn.
  destruct (array_next arr) as [[[] arr1]|]; [|done..]. cbn.
  destruct (drain fuel arr1) as [l1|] eqn:Hl1; [|done].
  by rewrite (IH _ _ fuel' ltac:(lia) Hl1).
Qed.

Lemma expandBraces_mono str l fuel fuel' :
  (fuel ≤ fuel')%nat →
  expandBraces fuel str = Some l → expandBraces fuel' str = Some l.
Proof.
  intros Hle. unfold expandBraces.
  destruct (getArray fuel str false) as [arr|] eqn:Harr; [|done]. cbn.
  rewrite (proj1 (constructors_mono fuel fuel' Hle) _ _ _ Harr). cbn.
  by apply drain_mono.
Qed.

Lemma yields_intro str l fuel :
  expandBraces fuel str = Some l → yields str l.
Proof. intros H. exists fuel. intros fuel' Hle. by eapply expandBraces_mono. Qed.

Lemma yields_getArray str arr fuel :
  getArray fuel str false = Some arr →
  yields str (array_outputs arr).
Proof.
  intros Harr.
  apply (yields_intro _ _ (fuel `max` length (array_outputs arr))).
  unfold expandBraces.
  rewrite (proj1 (constructors_mono fuel _ (Nat.le_max_l _ _)) _ _ _ Harr). cbn.
  apply drain_fresh; [by eapply constructors_fresh | lia].
Qed.

Lemma yields_unique str l l' : yields str l → yields str l' → l = l'.
Proof.
  intros [n Hn] [n' Hn'].
  specialize (Hn (n `max` n')%nat ltac:(lia)).
  specialize (Hn' (n `max` n')%nat ltac:(lia)). congruence.
Qed.

Lemma expandBraces_returns str : ∃ l, yields str l.
Proof.
  destruct (getArray_returns str false) as (arr & _ & Harr).
  exists (array_outputs arr). by eapply yields_getArray, Harr.
Qed.

Lemma getArray_loop_no_braces mk str rest values value skip :
  no_braces str = true →
  getArray_loop mk (str +:+ rest) values value skip =
  getArray_loop mk rest values (value +:+ str) skip.
Proof.
  revert value. induction str as [|c str IH]; intros value.
  - by rewrite string_app_nil_r.
  - rewrite string_app_cons. cbn. unfold is_brace. intros [Hc Hstr]%andb_true_iff.
    apply negb_true_iff, orb_false_iff in Hc as [-> ->].
    by rewrite IH, app_push_char.
Qed.

Lemma getArray_no_braces fuel str addEmpty :
  no_braces str = true →
  getArray (S fuel) str addEmpty =
    Some (if truthy str || addEmpty then [Str str] else []).
Proof.
  intros H. cbn. rewrite <- (string_app_nil_r str) at 1.
  by rewrite getArray_loop_no_braces.
Qed.

(** ** Theorems: expandBraces on given strings *)

(** The examples of the doc comment of [expandBraces], in the order of the
    code. *)
Example expandBraces_downloads :
  expandBraces 50 "~/{Downloads,Pictures}/*.{jpg,gif,png}" =
    Some ["~/Downloads/*.jpg"; "~/Pictures/*.jpg"; "~/Downloads/*.gif";
          "~/Pictures/*.gif"; "~/Downloads/*.png"; "~/Pictures/*.png"].
Proof. vm_compute. reflexivity. Qed.

Example expandBraces_itemize :
  expandBraces 50 "It{{em,alic}iz,erat}e{d,}, please." =
    Some ["Itemized, please."; "Italicized, please."; "Iterated, please.";
          "Itemize, please."; "Italicize, please."; "Iterate, please."].
Proof. vm_compute. reflexivity. Qed.

(** Braces that are not balanced are not refused. *)
Example expandBraces_unbalanced :
  expandBraces 50 "{a,b" = Some ["a,b"] ∧
  expandBraces 50 "}a{b,c}" = Some ["}a{b,c}"].
Proof. split; vm_compute; reflexivity. Qed.

(** C2: [expandBraces("thumbnail.{png,jp{e,}g}")] yields exactly three
    strings, "thumbnail.png", "thumbnail.jpeg" and "thumbnail.jpg", each of
    them once; the code yields them in this order. *)
Theorem expandBraces_thumbnail :
  ∃ l, yields "thumbnail.{png,jp{e,}g}" l ∧
       length l = 3%nat ∧ NoDup l ∧
       l ≡ₚ ["thumbnail.png"; "thumbnail.jpeg"; "thumbnail.jpg"].
Proof.
  exists ["thumbnail.png"; "thumbnail.jpeg"; "thumbnail.jpg"].
  split; [by apply (yields_intro _ _ 50)|].
  split; [done|]. split; [|done].
  apply (bool_decide_eq_true_1 (NoDup _)). by vm_compute.
Qed.

(** C3: on a string without ['{'] and without ['}'], [expandBraces] yields
    exactly one string, the input itself. *)
Theorem expandBraces_no_braces (str : string) :
  no_braces str = true → yields str [str].
Proof.
  intros H. apply (yields_intro _ _ 1). unfold expandBraces.
  rewrite getArray_no_braces by done. by destruct str.
Qed.

Lemma expandBraces_nothing_to_do :
  no_braces "nothing to do" = true ∧ yields "nothing to do" ["nothing to do"].
Proof. split; [reflexivity | apply expandBraces_no_braces; reflexivity]. Defined.

(** C4: [new getVariants("")], the object of an empty group, has exactly
    one alternative, which yields the empty string; and
    [expandBraces("a{}b")] yields exactly one string, "ab". *)
Theorem expandBraces_empty_group :
  getVariants 2 "" = Some (Variants [[Str ""]] 0) ∧
  outputs (Variants [[Str ""]] 0) = [""] ∧
  yields "a{}b" ["ab"].
Proof. split; [done|]. split; [done | by apply (yields_intro _ _ 10)]. Qed.

(** C10: [expandBraces("")] yields exactly one string, the empty string,
    although the array of the parsed string has no member. *)
Theorem expandBraces_empty_string :
  getArray 1 "" false = Some [] ∧ yields "" [""].
Proof. split; [done | by apply (yields_intro _ _ 1)]. Qed.

(** C7: on every argument, [getZigZagMatrix], [canDominoesMakeRow] and
    [extractRanges] throw the error "Not implemented", and so return no
    value. *)
Theorem stubs_throw (x : value) :
  (getZigZagMatrix x = Throw "Not implemented" ∧
   canDominoesMakeRow x = Throw "Not implemented" ∧
   extractRanges x = Throw "Not implemented") ∧
  ∀ r, getZigZagMatrix x ≠ Return r ∧
       canDominoesMakeRow x ≠ Return r ∧
       extractRanges x ≠ Return r.
Proof. split; [done|]. intros r. by repeat split. Qed.

(** C8: [getZigZagMatrix(1)] throws "Not implemented"; it does not return
    the matrix [[0]] of its doc comment. *)
Theorem getZigZagMatrix_1_throws :
  getZigZagMatrix (Number 1) = Throw "Not implemented" ∧
  getZigZagMatrix (Number 1) ≠ Return (Array [Array [Number 0]]).
Proof. by split. Qed.

(** ** The loops on text that is passed over *)

Section plain.
Implicit Types (s rest value : string) (d k : nat).

Lemma plain_at_app c c' d e s rest :
  plain_at c' e s = true →
  (c' = true → c = false → (0 < d)%nat) →
  plain_at c (d + e) (s +:+ rest) = plain_at c d rest.
Proof.
  intros H Hc. revert e H. induction s as [|a s IH]; intros e.
  - cbn. intros ->%Nat.eqb_eq. by rewrite Nat.add_0_r.
  - rewrite string_app_cons. cbn [plain_at].
    destruct (Ascii.eqb a "{").
    { intros H. rewrite <- (IH (S e)) by done. by rewrite Nat.add_succ_r. }
    destruct (Ascii.eqb a "}").
    { destruct e as [|e]; [done|]. intros H. rewrite Nat.add_succ_r. by apply IH. }
    destruct (Ascii.eqb a ","); [|by apply IH].
    intros [Hcomma H]%andb_true_iff. rewrite (IH e) by done.
    destruct c; [done|].
    assert (0 < d + e)%nat as ->%Nat.ltb_lt; [|done].
    destruct c'.
    + specialize (Hc eq_refl eq_refl). lia.
    + apply Nat.ltb_lt in Hcomma. lia.
Qed.

Lemma getArray_loop_plain mk s rest values value d k :
  plain_at true d s = true →
  getArray_loop mk (s +:+ rest) values value (Z.of_nat (S k + d)) =
  getArray_loop mk rest values (value +:+ s) (Z.of_nat (S k)).
Proof.
  revert value d. induction s as [|a s IH]; intros value d.
  - cbn. intros ->%Nat.eqb_eq. by rewrite string_app_nil_r, Nat.add_0_r.
  - rewrite string_app_cons, <- app_push_char. cbn [plain_at getArray_loop].
    destruct (Ascii.eqb a "}") eqn:Hc.
    { apply Ascii.eqb_eq in Hc as ->. change (Ascii.eqb "}" "{") with false.
      cbv iota. destruct d as [|d]; [done|]. intros H.
      destruct (Z.eqb_spec (Z.of_nat (S k + S d) - 1) 0) as [|_]; [lia|].
      rewrite <- (IH _ d) by done. f_equal. lia. }
    destruct (Ascii.eqb a "{") eqn:Ho.
    { intros H.
      destruct (Z.eqb_spec (Z.of_nat (S k + d)) 0) as [|_]; [lia|].
      rewrite <- (IH _ (S d)) by done. f_equal. lia. }
    intros H. apply IH.
    by destruct (Ascii.eqb a ","); [apply andb_true_iff in H as [_ H]|].
Qed.

Lemma getVariants_loop_plain mk s rest values value d k :
  plain_at (bool_decide (0 < k)%nat) d s = true →
  getVariants_loop mk (s +:+ rest) values value (Z.of_nat (k + d)) =
  getVariants_loop mk rest values (value +:+ s) (Z.of_nat k).
Proof.
  revert value d. induction s as [|a s IH]; intros value d.
  - cbn. intros ->%Nat.eqb_eq. by rewrite string_app_nil_r, Nat.add_0_r.
  - rewrite string_app_cons, <- app_push_char. cbn [plain_at getVariants_loop].
    destruct (Ascii.eqb a "{") eqn:Ho.
    { apply Ascii.eqb_eq in Ho as ->.
      change (Ascii.eqb "{" ",") with false. change (Ascii.eqb "{" "}") with false.
      cbv iota. cbn [andb]. intros H.
      rewrite <- (IH _ (S d)) by done. f_equal. lia. }
    destruct (Ascii.eqb a "}") eqn:Hc.
    { apply Ascii.eqb_eq in Hc as ->.
      change (Ascii.eqb "}" ",") with false.
      cbv iota. cbn [andb]. destruct d as [|d]; [done|]. intros H.
      rewrite <- (IH _ d) by done. f_equal. lia. }
    destruct (Ascii.eqb a ",") eqn:Hcomma; [|by apply IH].
    intros [Hk H]%andb_true_iff. cbn [andb].
    destruct (Z.eqb_spec (Z.of_nat (k + d)) 0) as [Hz|_]; [|by apply IH].
    exfalso.
    apply orb_true_iff in Hk as [Hk%bool_decide_eq_true|Hk%Nat.ltb_lt]; lia.
Qed.

End plain.

(** ** The text of a well-formed template *)

Lemma plain_at_weaken d s : plain_at false d s = true → plain_at true d s = true.
Proof.
  revert d. induction s as [|a s IH]; intros d; [done|]. cbn [plain_at].
  destruct (Ascii.eqb a "{"); [apply IH|].
  destruct (Ascii.eqb a "}"); [destruct d; [done|apply IH]|].
  destruct (Ascii.eqb a ","); [|apply IH].
  intros [_ Hs]%andb_true_iff. by apply IH.
Qed.

Lemma plain_at_Lit inner s :
  no_braces s && (negb inner || no_commas s) = true →
  plain_at (negb inner) 0 s = true.
Proof.
  induction s as [|a s IH]; [done|]. cbn [no_braces no_commas plain_at].
  unfold is_brace. intros [[Ha Hs]%andb_true_iff Hc]%andb_true_iff.
  apply negb_true_iff, orb_false_iff in Ha as [-> ->].
  destruct (Ascii.eqb a ",") eqn:Hcomma.
  - destruct inner; [done|]. cbn. apply IH. by rewrite Hs.
  - apply IH. rewrite Hs. cbn in *. by destruct inner.
Qed.

Lemma plain_at_template c (t : list piece) :
  Forall (λ p, plain_at c 0 (render p) = true) t →
  plain_at c 0 (render_template t) = true.
Proof.
  induction 1 as [|p t Hp _ IH]; [done|]. cbn.
  by rewrite (plain_at_app c c 0 0 _ _ Hp) by congruence.
Qed.

Lemma plain_at_join (l : list string) :
  Forall (λ s, plain_at true 0 s = true) l →
  plain_at true 0 (join_commas l) = true.
Proof.
  induction 1 as [|s l Hs _ IH]; [done|]. cbn [join_commas].
  destruct l as [|s' l]; [done|].
  by rewrite (plain_at_app true true 0 0 _ _ Hs).
Qed.

Lemma render_plain (p : piece) :
  ∀ inner, wf_piece inner p = true → plain_at (negb inner) 0 (render p) = true.
Proof.
  induction p as [s | alts IH] using piece_ind; intros inner.
  - apply plain_at_Lit.
  - cbn [wf_piece render]. intros [_ Hwf]%andb_true_iff.
    rewrite string_app_cons, string_app_nil_l. cbn [plain_at].
    change (Ascii.eqb "{" "{") with true. cbv iota.
    rewrite (plain_at_app (negb inner) true 1 0); [done| |lia].
    apply plain_at_join, Forall_fmap, Forall_forall. intros t Ht. cbn.
    apply plain_at_weaken, (plain_at_template false), Forall_forall.
    intros p Hp.
    apply (proj1 (Forall_forall _ _) (proj1 (Forall_forall _ _) IH t Ht) p Hp true).
    apply list_elem_of_In in Ht, Hp.
    by apply (proj1 (forallb_forall _ _) (proj1 (forallb_forall _ _) Hwf t Ht)).
Qed.

Lemma alternative_plain (t : list piece) :
  forallb (wf_piece true) t = true →
  plain_at false 0 (render_template t) = true.
Proof.
  intros Hwf. apply plain_at_template, Forall_forall. intros p Hp.
  apply (render_plain p true).
  by apply (proj1 (forallb_forall _ _) Hwf), list_elem_of_In.
Qed.

Lemma alternatives_plain (alts : list (list piece)) :
  forallb (forallb (wf_piece true)) alts = true →
  plain_at true 0 (join_commas (render_template <$> alts)) = true.
Proof.
  intros Hwf. apply plain_at_join, Forall_fmap, Forall_forall. intros t Ht.
  apply plain_at_weaken, alternative_plain.
  by apply (proj1 (forallb_forall _ _) Hwf), list_elem_of_In.
Qed.

(** ** The outputs of an array, member by member *)

Section cross.
Implicit Types xs ys zs : list string.

Lemma cross_app_r xs ys zs : cross xs (ys ++ zs) = cross xs ys ++ cross xs zs.
Proof. unfold cross. by rewrite bind_app. Qed.

Lemma cross_unit_l ys : cross [""] ys = ys.
Proof. induction ys as [|y ys IH]; [done|]. rewrite cross_cons, IH. done. Qed.

Lemma cross_unit_r xs : cross xs [""] = xs.
Proof.
  rewrite cross_cons, cross_nil_r, app_nil_r.
  induction xs as [|x xs IH]; [done|]. cbn. by rewrite string_app_nil_r, IH.
Qed.

Lemma cross_fmap_r xs ys (z : string) :
  (λ w, w +:+ z) <$> cross xs ys = cross xs ((λ y, y +:+ z) <$> ys).
Proof.
  induction ys as [|y ys IH]; [done|].
  rewrite fmap_cons, !cross_cons, fmap_app, IH. f_equal.
  rewrite <- list_fmap_compose. apply list_fmap_ext. intros _ x _. cbn.
  apply string_app_assoc.
Qed.

Lemma cross_assoc xs ys zs : cross (cross xs ys) zs = cross xs (cross ys zs).
Proof.
  induction zs as [|z zs IH]; [done|].
  by rewrite !cross_cons, cross_app_r, IH, cross_fmap_r.
Qed.

Lemma cross_singleton (s t : string) : cross [s] [t] = [s +:+ t].
Proof. done. Qed.

Lemma cross_length xs ys : length (cross xs ys) = (length xs * length ys)%nat.
Proof.
  induction ys as [|y ys IH]; [cbn; lia|].
  rewrite cross_cons, length_app, length_fmap, IH. cbn. lia.
Qed.

End cross.

Lemma array_outputs_app (a b : list item) :
  array_outputs (a ++ b) = cross (array_outputs a) (array_outputs b).
Proof.
  induction a as [|v a IH]; [by rewrite cross_unit_l|].
  cbn. unfold array_outputs_with in IH. by rewrite IH, cross_assoc.
Qed.

Lemma array_outputs_snoc_Str (a : list item) (s : string) :
  array_outputs (a ++ [Str s]) = cross (array_outputs a) [s].
Proof. rewrite array_outputs_app. f_equal. apply (cross_unit_r [s]). Qed.

Lemma array_outputs_pushed (values : list item) (value : string) (b : bool) :
  array_outputs (if truthy value || b then values ++ [Str value] else values)
  = array_outputs (values ++ [Str value]).
Proof.
  destruct value; [|done]. destruct b; [done|]. cbn [truthy orb].
  by rewrite array_outputs_snoc_Str, cross_unit_r.
Qed.

(** ** The constructors on the text of a template *)

Lemma render_template_cons p (t : list piece) :
  render_template (p :: t) = render p +:+ render_template t.
Proof. done. Qed.

Lemma template_odometer_cons p (t : list piece) :
  template_odometer (p :: t) = cross (odometer p) (template_odometer t).
Proof. done. Qed.

Lemma group_text_app (body rest : string) :
  ("{" +:+ body +:+ "}") +:+ rest = String "{" (body +:+ String "}" rest).
Proof. by rewrite !string_app_assoc. Qed.

(** The loop of [getArray] over the text of a template, outside braces. *)
Lemma getArray_loop_template mk (t : list piece) rest values value r :
  Forall (λ p, wf_piece false p = true ∧ group_parsed mk p) t →
  getArray_loop mk (render_template t +:+ rest) values value 0 = Some r →
  ∃ values' value',
    getArray_loop mk rest values' value' 0 = Some r ∧
    array_outputs (values' ++ [Str value']) =
      cross (array_outputs (values ++ [Str value])) (template_odometer t).
Proof.
  intros Ht. revert values value.
  induction Ht as [|p t [Hwf Hp] _ IH]; intros values value.
  { intros Hr. exists values, value. by rewrite cross_unit_r. }
  rewrite render_template_cons, string_app_assoc, template_odometer_cons.
  destruct p as [s|alts].
  - cbn [render odometer]. cbn in Hwf. rewrite andb_true_r in Hwf.
    rewrite getArray_loop_no_braces by done. intros Hr.
    destruct (IH _ _ Hr) as (values' & value' & Hr' & Hout).
    exists values', value'. split; [done|]. rewrite Hout.
    by rewrite !array_outputs_snoc_Str, <- cross_assoc, (cross_assoc _ [value]).
  - cbn [wf_piece] in Hwf. apply andb_true_iff in Hwf as [_ Hwf].
    apply alternatives_plain in Hwf. cbn [render].
    set (body := join_commas (render_template <$> alts)) in *.
    rewrite group_text_app.
    cbn [getArray_loop]. change (Ascii.eqb "{" "}") with false.
    change (Ascii.eqb "{" "{") with true. cbv iota.
    change (0 =? 0) with true. cbv iota. change (0 + 1) with (Z.of_nat (1 + 0)).
    rewrite getArray_loop_plain by done. rewrite string_app_nil_l.
    cbn [getArray_loop]. change (Ascii.eqb "}" "}") with true. cbv iota.
    change (Z.of_nat 1 - 1 =? 0) with true. cbv iota.
    destruct (mk body) as [v|] eqn:Hv; [|done]. cbn [mbind option_bind].
    intros Hr. destruct (IH _ _ Hr) as (values' & value' & Hr' & Hout).
    exists values', value'. split; [done|]. rewrite Hout.
    rewrite <- (Hp v Hv : outputs v = _).
    rewrite <- (cross_assoc _ (outputs _)). f_equal.
    rewrite array_outputs_snoc_Str, cross_unit_r, array_outputs_app.
    f_equal; [|apply (cross_unit_r (outputs v))].
    by rewrite <- (array_outputs_pushed values value false), orb_false_r.
Qed.

(** The loop of [getVariants] over the alternatives of a group: it stops
    with the text of the last alternative in [value], the others built. *)
Lemma getVariants_loop_alternatives mk (alts : list (list piece)) values r :
  alts ≠ [] →
  Forall (λ t, plain_at false 0 (render_template t) = true) alts →
  getVariants_loop mk (join_commas (render_template <$> alts)) values "" 0
    = Some r →
  ∃ front t arrs,
    alts = front ++ [t] ∧ r = (values ++ arrs, render_template t) ∧
    Forall2 (λ t arr, mk (render_template t) = Some arr) front arrs.
Proof.
  intros Hne Hplain. revert values.
  induction Hplain as [|t alts Ht _ IH]; [done|]. clear Hne. intros values.
  destruct alts as [|t' alts].
  - cbn [fmap list_fmap join_commas].
    rewrite <- (string_app_nil_r (render_template t)).
    rewrite (getVariants_loop_plain mk _ "" values "" 0 0) by done.
    cbn [getVariants_loop]. intros [= <-].
    exists [], t, []. by rewrite app_nil_r.
  - change (join_commas (render_template <$> t :: t' :: alts))
      with (render_template t +:+ String "," (join_commas (render_template <$> t' :: alts))).
    rewrite (getVariants_loop_plain mk _ _ values "" 0 0) by done.
    rewrite string_app_nil_l. cbn [getVariants_loop].
    change (Ascii.eqb "," "," && (Z.of_nat 0 =? 0)) with true. cbv iota.
    destruct (mk (render_template t)) as [arr|] eqn:Harr; [|done].
    cbn [mbind option_bind]. intros Hr.
    destruct (IH ltac:(done) _ Hr) as (front & tl & arrs & Halts & -> & Hall).
    exists (t :: front), tl, (arr :: arrs). rewrite Halts.
    split; [done|]. split; [by rewrite <- app_assoc|]. by constructor.
Qed.

(** [getArray] on the text of a template whose groups [getVariants] builds
    rightly. *)
Lemma getArray_template fuel (t : list piece) addEmpty arr :
  Forall (λ p, wf_piece false p = true ∧ group_parsed (getVariants fuel) p) t →
  getArray (S fuel) (render_template t) addEmpty = Some arr →
  array_outputs arr = template_odometer t.
Proof.
  intros Ht. cbn [getArray].
  destruct (getArray_loop (getVariants fuel) (render_template t) [] "" 0)
    as [[values value]|] eqn:Hloop; [|done].
  rewrite <- (string_app_nil_r (render_template t)) in Hloop.
  apply (getArray_loop_template _ _ _ _ _ _ Ht) in Hloop
    as (values' & value' & [= -> ->] & Hout).
  cbn [mbind option_bind]. intros [= <-].
  rewrite array_outputs_pushed, Hout. apply cross_unit_l.
Qed.

Lemma wf_piece_inner (p : piece) :
  wf_piece true p = true → wf_piece false p = true.
Proof.
  destruct p as [s|alts]; [|done]. cbn.
  intros [-> _]%andb_true_iff. done.
Qed.

(** [getVariants] builds every well-formed group rightly. *)
Lemma getVariants_group (p : piece) :
  ∀ inner fuel, wf_piece inner p = true → group_parsed (getVariants fuel) p.
Proof.
  induction p as [s | alts IH] using piece_ind; intros inner fuel Hwf; [done|].
  cbn [wf_piece] in Hwf.
  apply andb_true_iff in Hwf as [Hne%negb_true_iff%bool_decide_eq_false Hwf].
  intros v. destruct fuel as [|fuel]; [done|]. cbn [getVariants].
  set (mk := λ s, getArray fuel s true).
  destruct (getVariants_loop mk _ [] "" 0) as [[values value]|] eqn:Hloop; [|done].
  apply getVariants_loop_alternatives in Hloop
    as (front & t & arrs & Halts & [= -> ->] & Hall); [|done|].
  2:{ apply Forall_forall. intros t Ht. apply alternative_plain.
      by apply (proj1 (forallb_forall _ _) Hwf), list_elem_of_In. }
  cbn [mbind option_bind].
  destruct (getArray fuel (render_template t) true) as [a|] eqn:Ha; [|done].
  cbn [mbind option_bind]. intros [= <-]. cbn [outputs odometer app].
  f_equal.
  assert (Hparsed : ∀ t' arr, t' ∈ alts → mk (render_template t') = Some arr →
            array_outputs arr = template_odometer t').
  { intros t' arr Ht'. unfold mk. destruct fuel as [|fuel']; [done|].
    apply getArray_template, Forall_forall. intros q Hq.
    pose proof (proj1 (forallb_forall _ _)
      (proj1 (forallb_forall _ _) Hwf t' (proj1 (list_elem_of_In _ _) Ht'))
      q (proj1 (list_elem_of_In _ _) Hq)) as Hwfq.
    split; [by apply wf_piece_inner|].
    by apply (proj1 (Forall_forall _ _) (proj1 (Forall_forall _ _) IH t' Ht')
                q Hq true). }
  rewrite Halts in Hparsed |- *. clear Halts Hwf IH Hne.
  rewrite !fmap_app. f_equal.
  - induction Hall as [|t' arr front arrs Harr _ IHall]; [done|]. cbn.
    f_equal.
    + apply (Hparsed t' arr); [|done]. apply elem_of_app. left. by left.
    + apply IHall. intros t'' arr' Ht''. apply Hparsed.
      apply elem_of_app in Ht'' as [Ht''|Ht'']; apply elem_of_app;
        [left; by right | by right].
  - cbn. f_equal. apply (Hparsed t a); [|done]. apply elem_of_app. right. by left.
Qed.

(** On the text of a well-formed template, [getArray] builds an array whose
    outputs are the expansions of the template, in the order of the code. *)
Lemma getArray_wf_template fuel (t : list piece) addEmpty arr :
  wf_template t = true →
  getArray fuel (render_template t) addEmpty = Some arr →
  array_outputs arr = template_odometer t.
Proof.
  intros Hwf. destruct fuel as [|fuel]; [done|].
  apply getArray_template, Forall_forall. intros p Hp.
  pose proof (proj1 (forallb_forall _ _) Hwf p (proj1 (list_elem_of_In _ _) Hp)).
  split; [done|]. by eapply getVariants_group.
Qed.

(** ** The order of the code and the order of the specification *)

Section product.
Implicit Types xs ys : list string.

Lemma product_cons x xs ys :
  product (x :: xs) ys = ((λ y, x +:+ y) <$> ys) ++ product xs ys.
Proof.
  unfold product. rewrite bind_cons. f_equal.
Qed.

Lemma cross_nil_l ys : cross [] ys = [].
Proof. induction ys as [|y ys IH]; [done|]. by rewrite cross_cons, IH. Qed.

Lemma cross_cons_l x xs ys :
  cross (x :: xs) ys ≡ₚ ((λ y, x +:+ y) <$> ys) ++ cross xs ys.
Proof.
  induction ys as [|y ys IH]; [done|].
  rewrite !cross_cons, IH, !fmap_cons. cbn [app]. apply Permutation_skip.
  rewrite !app_assoc. apply Permutation_app_tail, Permutation_app_comm.
Qed.

Lemma cross_product xs ys : cross xs ys ≡ₚ product xs ys.
Proof.
  induction xs as [|x xs IH]; [by rewrite cross_nil_l|].
  by rewrite cross_cons_l, product_cons, IH.
Qed.

Lemma product_Permutation xs xs' ys ys' :
  xs ≡ₚ xs' → ys ≡ₚ ys' → product xs ys ≡ₚ product xs' ys'.
Proof.
  intros Hxs Hys. trans (product xs ys').
  - clear Hxs. induction xs as [|x xs IH]; [done|].
    by rewrite !product_cons, IH, Hys.
  - unfold product. by rewrite Hxs.
Qed.

End product.

Lemma odometer_expansions (p : piece) : odometer p ≡ₚ expansions p.
Proof.
  induction p as [s | alts IH] using piece_ind; [done|].
  cbn [odometer expansions].
  induction IH as [|t alts Ht _ IHalts]; [done|]. cbn.
  apply Permutation_app; [|done]. clear IHalts.
  induction Ht as [|p t Hp _ IHt]; [done|]. cbn.
  rewrite cross_product. by apply product_Permutation.
Qed.

Lemma template_odometer_expansions (t : list piece) :
  template_odometer t ≡ₚ template_expansions t.
Proof.
  induction t as [|p t IH]; [done|]. cbn.
  rewrite cross_product. apply product_Permutation; [|done].
  apply odometer_expansions.
Qed.

Lemma odometer_length (p : piece) : length (odometer p) = count p.
Proof.
  induction p as [s | alts IH] using piece_ind; [done|].
  cbn [odometer count].
  induction IH as [|t alts Ht _ IHalts]; [done|].
  rewrite !fmap_cons. cbn [concat sum_list_with].
  rewrite length_app, IHalts. f_equal. clear IHalts. unfold id.
  induction Ht as [|p t Hp _ IHt]; [done|].
  change (length (cross (odometer p) (template_odometer t)) =
          (count p * template_count t)%nat).
  by rewrite cross_length, Hp, IHt.
Qed.

Lemma template_odometer_length (t : list piece) :
  length (template_odometer t) = template_count t.
Proof.
  induction t as [|p t IH]; [done|].
  change (length (cross (odometer p) (template_odometer t)) =
          (count p * template_count t)%nat).
  by rewrite cross_length, odometer_length, IH.
Qed.

(** ** Every text with balanced braces is the text of a template *)

Section balanced.
Implicit Types (s body rest : string) (d n : nat).

Lemma join_commas_cons s (l : list string) :
  l ≠ [] → join_commas (s :: l) = s +:+ String "," (join_commas l).
Proof. by destruct l. Qed.

Lemma join_commas_push a s (l : list string) :
  join_commas (String a s :: l) = String a (join_commas (s :: l)).
Proof. by destruct l. Qed.

(** The text after an open brace, up to the brace that closes it. *)
Lemma plain_at_close c n :
  ∀ s d, (String.length s ≤ n)%nat → plain_at c (S d) s = true →
    ∃ body rest, s = body +:+ String "}" rest ∧
      plain_at true 0 body = true ∧ plain_at c d rest = true.
Proof.
  induction n as [|n IH]; intros [|a s] d Hn; try done; [cbn in Hn; lia|].
  cbn in Hn. cbn [plain_at].
  destruct (Ascii.eqb a "{") eqn:Ho.
  { apply Ascii.eqb_eq in Ho as ->. intros H.
    destruct (IH s (S d) ltac:(lia) H) as (b1 & r1 & -> & Hb1 & Hr1).
    destruct (IH r1 d) as (b2 & r2 & -> & Hb2 & Hr2); [|done|].
    { rewrite string_app_length in Hn. cbn in Hn. lia. }
    exists (String "{" (b1 +:+ String "}" b2)), r2. split; [|split; [|done]].
    - by rewrite string_app_cons, string_app_assoc.
    - cbn [plain_at]. change (Ascii.eqb "{" "{") with true. cbv iota.
      rewrite (plain_at_app true true 1 0) by done.
      cbn [plain_at]. by change (Ascii.eqb "}" "{") with false. }
  destruct (Ascii.eqb a "}") eqn:Hc.
  { apply Ascii.eqb_eq in Hc as ->. intros H. by exists "", s. }
  assert (∀ body, plain_at true 0 body = true →
            plain_at true 0 (String a body) = true) as Hpush.
  { intros body Hbody. cbn [plain_at]. rewrite Ho, Hc.
    by destruct (Ascii.eqb a ","). }
  intros H.
  assert (plain_at c (S d) s = true) as Hs.
  { by destruct (Ascii.eqb a ","); [apply andb_true_iff in H as [_ H]|]. }
  destruct (IH s d ltac:(lia) Hs) as (b & r & -> & Hb & Hr).
  exists (String a b), r. by rewrite string_app_cons, Hpush.
Qed.

(** A text split at the commas that lie outside braces. *)
Lemma plain_at_split s :
  ∀ d, plain_at true d s = true →
    ∃ first others,
      s = join_commas (first :: others) ∧
      plain_at false d first = true ∧
      Forall (λ a, plain_at false 0 a = true) others ∧
      Forall (λ a, (String.length a ≤ String.length s)%nat) (first :: others).
Proof.
  induction s as [|a s IH]; intros d.
  { cbn. intros Hd. exists "", []. by repeat constructor. }
  assert (Hlen : ∀ first others,
            Forall (λ b, (String.length b ≤ String.length s)%nat) (first :: others) →
            Forall (λ b, (String.length b ≤ String.length (String a s))%nat)
                   (String a first :: others)).
  { intros first others [H1 H2]%Forall_cons. constructor; [cbn; lia|].
    eapply Forall_impl; [done|]. cbn. lia. }
  cbn [plain_at].
  destruct (Ascii.eqb a "{") eqn:Ho.
  { intros H. destruct (IH _ H) as (first & others & -> & Hf & Ho' & Hl).
    exists (String a first), others. rewrite join_commas_push.
    cbn [plain_at]. rewrite Ho. auto. }
  destruct (Ascii.eqb a "}") eqn:Hc.
  { destruct d as [|d]; [done|]. intros H.
    destruct (IH _ H) as (first & others & -> & Hf & Ho' & Hl).
    exists (String a first), others. rewrite join_commas_push.
    cbn [plain_at]. rewrite Ho, Hc. auto. }
  destruct (Ascii.eqb a ",") eqn:Hcomma.
  - intros [_ H]%andb_true_iff.
    destruct (IH _ H) as (first & others & Hs & Hf & Ho' & Hl).
    destruct d as [|d].
    + apply Ascii.eqb_eq in Hcomma as ->.
      exists "", (first :: others). split; [by rewrite Hs|].
      split; [done|]. split; [by constructor|].
      constructor; [cbn; lia|]. eapply Forall_impl; [done|]. cbn. lia.
    + exists (String a first), others. rewrite join_commas_push, <- Hs.
      cbn [plain_at]. rewrite Ho, Hc, Hcomma. auto.
  - intros H. destruct (IH _ H) as (first & others & -> & Hf & Ho' & Hl).
    exists (String a first), others. rewrite join_commas_push.
    cbn [plain_at]. rewrite Ho, Hc, Hcomma. auto.
Qed.

Lemma template_of_plain n :
  ∀ s inner, (String.length s ≤ n)%nat →
    plain_at (negb inner) 0 s = true →
    ∃ t : list piece, forallb (wf_piece inner) t = true ∧ render_template t = s.
Proof.
  induction n as [|n IH]; intros [|a s] inner Hn; try (by exists []).
  { cbn in Hn. lia. }
  cbn in Hn. cbn [plain_at].
  destruct (Ascii.eqb a "{") eqn:Ho.
  { apply Ascii.eqb_eq in Ho as ->. intros H.
    destruct (plain_at_close _ _ _ _ (Nat.le_refl _) H)
      as (body & rest & -> & Hbody & Hrest).
    rewrite string_app_length in Hn. cbn in Hn.
    destruct (IH rest inner ltac:(lia) Hrest) as (trest & Hwf & <-).
    destruct (plain_at_split _ _ Hbody) as (first & others & -> & Hf & Ho & Hl).
    assert (∃ ts : list (list piece),
              Forall2 (λ t a, forallb (wf_piece true) t = true ∧
                              render_template t = a) ts (first :: others))
      as [ts Hts].
    { assert (Forall (λ a, plain_at false 0 a = true) (first :: others)) as Hp
        by by constructor.
      assert (Forall (λ a, (String.length a ≤ n)%nat) (first :: others)) as Hl'.
      { eapply Forall_impl; [exact Hl|]. cbn beta. intros b Hb. lia. }
      clear Hf Ho Hl Hn H Hbody. revert Hp Hl'. generalize (first :: others) as alts.
      induction alts as [|b alts IHalts]; [by exists []|].
      intros [Hb Hp]%Forall_cons [Hlb Hl]%Forall_cons.
      destruct (IHalts Hp Hl) as [ts Hts].
      destruct (IH b true ltac:(lia) Hb) as (tb & Hwfb & Hrb).
      exists (tb :: ts). by constructor. }
    exists (Group ts :: trest). split.
    - cbn [forallb wf_piece]. rewrite Hwf, andb_true_r. apply andb_true_iff. split.
      + apply negb_true_iff, bool_decide_eq_false. intros ->. by inversion Hts.
      + apply forallb_forall. intros t Ht%list_elem_of_In.
        destruct (proj1 (list_elem_of_lookup _ _) Ht) as [i Hi].
        destruct (Forall2_lookup_l _ _ _ _ _ Hts Hi) as (b & _ & Hb & _). done.
    - rewrite render_template_cons. cbn [render].
      rewrite group_text_app. do 2 f_equal.
      clear -Hts. induction Hts as [|t b ts alts [_ <-] Hts IHts]; [done|].
      rewrite fmap_cons. destruct Hts as [|t' b' ts' alts' [_ Hb'] Hts']; [done|].
      rewrite fmap_cons in *.
      rewrite (join_commas_cons _ (_ :: _)), (join_commas_cons _ (_ :: _)) by done.
      by rewrite IHts. }
  destruct (Ascii.eqb a "}") eqn:Hc; [done|].
  intros H.
  assert (wf_piece inner (Lit (String a "")) = true ∧ plain_at (negb inner) 0 s = true)
    as [Hwfa Hs].
  { cbn. unfold is_brace. rewrite Ho, Hc. cbn.
    destruct (Ascii.eqb a ",").
    - apply andb_true_iff in H as [Hi H]. rewrite orb_false_r in Hi.
      split; [by rewrite Hi|done].
    - by destruct inner. }
  destruct (IH s inner ltac:(lia) Hs) as (t & Hwf & <-).
  exists (Lit (String a "") :: t). split; [|done].
  cbn [forallb]. by rewrite Hwfa.
Qed.

End balanced.

Lemma balanced_template (str : string) :
  balanced str = true →
  ∃ t : list piece, wf_template t = true ∧ render_template t = str.
Proof. apply (template_of_plain _ str false (Nat.le_refl _)). Qed.

Lemma template_balanced (t : list piece) :
  wf_template t = true → balanced (render_template t) = true.
Proof.
  intros Hwf. apply plain_at_template, Forall_forall. intros p Hp.
  apply (render_plain p false).
  by apply (proj1 (forallb_forall _ _) Hwf), list_elem_of_In.
Qed.

(** ** Theorems: expandBraces on templates *)

Example count_thumbnail :
  template_count
    [Lit "thumbnail.";
     Group [[Lit "png"]; [Lit "jp"; Group [[Lit "e"]; []]; Lit "g"]]] = 3%nat.
Proof. reflexivity. Qed.

Example count_itemize :
  template_count
    [Lit "It";
     Group [[Group [[Lit "em"]; [Lit "alic"]]; Lit "iz"]; [Lit "erat"]];
     Lit "e"; Group [[Lit "d"]; []]; Lit ", please."] = 6%nat.
Proof. reflexivity. Qed.

(** C1: a string with balanced braces is the text of a well-formed
    template; and whichever well-formed template [t] it is the text of,
    [expandBraces] yields on it a sequence [l] whose length is the count of
    [t] (the product over its groups, a group counting the sum over its
    alternatives of the product over the groups nested in them) and which is
    a permutation of the expansions of [t]: every combination of choices is
    yielded, as many times as the template has it. *)
Theorem expandBraces_exhaustive (str : string) :
  balanced str = true →
  (∃ t, wf_template t = true ∧ render_template t = str) ∧
  ∀ t, wf_template t = true → render_template t = str →
    ∃ l, yields str l ∧
         length l = template_count t ∧
         l ≡ₚ template_expansions t.
Proof.
  intros Hbal. split; [by apply balanced_template|].
  intros t Hwf <-.
  destruct (getArray_returns (render_template t) false) as (arr & _ & Harr).
  specialize (Harr _ (Nat.le_refl _)).
  pose proof (getArray_wf_template _ _ _ _ Hwf Harr) as Hout.
  exists (array_outputs arr). split; [by eapply yields_getArray|].
  rewrite Hout. split.
  - apply template_odometer_length.
  - apply template_odometer_expansions.
Qed.

Lemma expandBraces_exhaustive_thumbnail :
  balanced "thumbnail.{png,jp{e,}g}" = true ∧
  ((∃ t, wf_template t = true ∧
         render_template t = "thumbnail.{png,jp{e,}g}") ∧
   ∀ t, wf_template t = true →
        render_template t = "thumbnail.{png,jp{e,}g}" →
     ∃ l, yields "thumbnail.{png,jp{e,}g}" l ∧
          length l = template_count t ∧
          l ≡ₚ template_expansions t).
Proof.
  split; [reflexivity | apply expandBraces_exhaustive; reflexivity].
Defined.

(** * Further properties *)

(** ** The compass table *)

(** X1: the abbreviations of [createCompassPoints()] are the 32 points of
    the standard table, clockwise from north, the last being "NbW". *)
Theorem compass_table :
  abbreviations =
    Some <$> ["N"; "NbE"; "NNE"; "NEbN"; "NE"; "NEbE"; "ENE"; "EbN";
              "E"; "EbS"; "ESE"; "SEbE"; "SE"; "SEbS"; "SSE"; "SbE";
              "S"; "SbW"; "SSW"; "SWbS"; "SW"; "SWbW"; "WSW"; "WbS";
              "W"; "WbN"; "WNW"; "NWbW"; "NW"; "NWbN"; "NNW"; "NbW"].
Proof. vm_compute. reflexivity. Qed.

(** X2: the point opposite to the point at index [i], sixteen steps
    further round, has the abbreviation of [i] with north and south, east
    and west exchanged. *)
Theorem compass_opposite (i : nat) :
  (i < 32)%nat →
  ∃ s, abbreviations !! i = Some (Some s) ∧
       abbreviations !! ((i + 16) `mod` 32)%nat = Some (Some (opposite s)).
Proof.
  intros Hi.
  do 32 (destruct i as [|i];
         [eexists; split; vm_compute; reflexivity|]).
  lia.
Qed.

Lemma compass_opposite_NbE :
  (1 < 32)%nat ∧
  ∃ s, abbreviations !! 1%nat = Some (Some s) ∧
       abbreviations !! ((1 + 16) `mod` 32)%nat = Some (Some (opposite s)).
Proof. split; [lia | apply compass_opposite; lia]. Defined.

(** ** expandBraces on every string *)

Lemma steps_nonempty {St} (cur : St → option string) nxt s l s' :
  steps cur nxt s l s' → l ≠ [].
Proof. by destruct 1. Qed.

(** X4: on every string, balanced or not, [expandBraces] yields at least
    one string: the loop reads [current] before it asks [next]. *)
Theorem expandBraces_nonempty (str : string) :
  ∃ l, yields str l ∧ l ≠ [].
Proof.
  destruct (getArray_returns str false) as (arr & Hfresh & Harr).
  exists (array_outputs arr). split; [by eapply yields_getArray, Harr|].
  by eapply steps_nonempty, fresh_array_steps.
Qed.

(** X11: whatever string the constructor was given, a round of [next] on
    the object it built goes through the outputs of the object and, with
    the [next] that answers [false], leaves it in the state the constructor
    left it in: every [position] is back at 0. *)
Theorem next_resets fuel str addEmpty arr :
  getArray fuel str addEmpty = Some arr →
  steps array_current array_next arr (array_outputs arr) arr.
Proof. intros Harr. by eapply fresh_array_steps, constructors_fresh. Qed.

Lemma next_resets_group :
  getArray 10 "{a,b}" false = Some [Variants [[Str "a"]; [Str "b"]] 0] ∧
  steps array_current array_next [Variants [[Str "a"]; [Str "b"]] 0]
        (array_outputs [Variants [[Str "a"]; [Str "b"]] 0])
        [Variants [[Str "a"]; [Str "b"]] 0].
Proof. split; [reflexivity | by apply (next_resets 10 "{a,b}" false)]. Defined.

(** ** Strings whose braces are not balanced *)

Lemma getArray_loop_no_open mk str values value skip :
  skip ≤ 0 → no_open str = true →
  getArray_loop mk str values value skip = Some (values, value +:+ str).
Proof.
  revert value skip. induction str as [|c str IH]; intros value skip Hskip.
  - by rewrite string_app_nil_r.
  - cbn [no_open getArray_loop]. intros [Hc Hstr]%andb_true_iff.
    apply negb_true_iff in Hc. rewrite Hc.
    destruct (Ascii.eqb c "}").
    + destruct (Z.eqb_spec (skip - 1) 0) as [|_]; [lia|].
      rewrite IH by (done || lia). by rewrite app_push_char.
    + rewrite IH by done. by rewrite app_push_char.
Qed.

(** X9: a string without an open brace, whatever closing braces and commas
    it has, is yielded as it is, once. *)
Theorem expandBraces_no_open (str : string) :
  no_open str = true → yields str [str].
Proof.
  intros H. apply (yields_intro _ _ 1). unfold expandBraces. cbn [getArray].
  rewrite getArray_loop_no_open by done. by destruct str.
Qed.

Lemma expandBraces_no_open_closing :
  no_open "a}b,c}" = true ∧ yields "a}b,c}" ["a}b,c}"].
Proof. split; [reflexivity | apply expandBraces_no_open; reflexivity]. Defined.

(** X10: an open brace that is never closed is dropped, and what follows
    it is kept as it is: its groups are not expanded. *)
Theorem expandBraces_unclosed (s t : string) :
  no_braces s = true → balanced t = true →
  yields (s +:+ String "{" t) [s +:+ t].
Proof.
  intros Hs Ht. apply (yields_intro _ _ 1). unfold expandBraces.
  cbn [getArray]. rewrite getArray_loop_no_braces by done.
  cbn [getArray_loop]. change (Ascii.eqb "{" "}") with false.
  change (Ascii.eqb "{" "{") with true. cbv iota.
  change (0 =? 0) with true. cbv iota. change (0 + 1) with (Z.of_nat (1 + 0)).
  rewrite <- (string_app_nil_r t) at 1.
  rewrite getArray_loop_plain by done. cbn [getArray_loop mbind option_bind].
  rewrite !string_app_nil_l, orb_false_r.
  destruct s as [|a s], t as [|b t]; cbn [truthy drain];
    rewrite ?array_current_cons, ?array_current_nil; cbn;
    by rewrite ?string_app_nil_r.
Qed.

Lemma expandBraces_unclosed_group :
  no_braces "x" = true ∧ balanced "a{b,c}" = true ∧
  yields "x{a{b,c}" ["xa{b,c}"].
Proof.
  split; [reflexivity|]. split; [reflexivity|].
  apply (expandBraces_unclosed "x" "a{b,c}"); reflexivity.
Defined.

(** ** expandBraces on strings with balanced braces *)

Lemma yields_wf_template (t : list piece) :
  wf_template t = true → yields (render_template t) (template_odometer t).
Proof.
  intros Hwf.
  destruct (getArray_returns (render_template t) false) as (arr & _ & Harr).
  specialize (Harr _ (Nat.le_refl _)).
  rewrite <- (getArray_wf_template _ _ _ _ Hwf Harr).
  by eapply yields_getArray.
Qed.

(** X5: the order of the strings. On the text of a well-formed template
    the generator yields the expansions with the choice of the leftmost
    group changing first, the alternatives of a group in the order they are
    written. *)
Theorem expandBraces_odometer (t : list piece) :
  wf_template t = true →
  yields (render_template t) (template_odometer t).
Proof. apply yields_wf_template. Qed.

Lemma expandBraces_odometer_downloads :
  wf_template [Lit "~/"; Group [[Lit "Downloads"]; [Lit "Pictures"]];
               Lit "/*."; Group [[Lit "jpg"]; [Lit "gif"]]] = true ∧
  yields (render_template
            [Lit "~/"; Group [[Lit "Downloads"]; [Lit "Pictures"]];
             Lit "/*."; Group [[Lit "jpg"]; [Lit "gif"]]])
         (template_odometer
            [Lit "~/"; Group [[Lit "Downloads"]; [Lit "Pictures"]];
             Lit "/*."; Group [[Lit "jpg"]; [Lit "gif"]]]).
Proof. split; [reflexivity | apply expandBraces_odometer; reflexivity]. Defined.

Example odometer_downloads :
  template_odometer
    [Lit "~/"; Group [[Lit "Downloads"]; [Lit "Pictures"]];
     Lit "/*."; Group [[Lit "jpg"]; [Lit "gif"]]] =
  ["~/Downloads/*.jpg"; "~/Pictures/*.jpg";
   "~/Downloads/*.gif"; "~/Pictures/*.gif"].
Proof. vm_compute. reflexivity. Qed.

Lemma render_template_app (t1 t2 : list piece) :
  render_template (t1 ++ t2) = render_template t1 +:+ render_template t2.
Proof.
  induction t1 as [|p t1 IH]; [done|].
  rewrite <- app_comm_cons, !render_template_cons, IH.
  by rewrite string_app_assoc.
Qed.

Lemma template_odometer_app (t1 t2 : list piece) :
  template_odometer (t1 ++ t2) =
    cross (template_odometer t1) (template_odometer t2).
Proof.
  induction t1 as [|p t1 IH]; [by rewrite cross_unit_l|].
  rewrite <- app_comm_cons, !template_odometer_cons, IH.
  by rewrite cross_assoc.
Qed.

(** X6: the outputs of two balanced strings put one after the other are
    the concatenations of an output of the first and an output of the
    second, those of the first changing first. *)
Theorem expandBraces_app (s1 s2 : string) (l1 l2 : list string) :
  balanced s1 = true → balanced s2 = true →
  yields s1 l1 → yields s2 l2 →
  yields (s1 +:+ s2) (cross l1 l2).
Proof.
  intros (t1 & Hwf1 & <-)%balanced_template (t2 & Hwf2 & <-)%balanced_template.
  intros Hl1 Hl2.
  rewrite (yields_unique _ _ _ Hl1 (yields_wf_template t1 Hwf1)).
  rewrite (yields_unique _ _ _ Hl2 (yields_wf_template t2 Hwf2)).
  rewrite <- render_template_app, <- template_odometer_app.
  apply yields_wf_template. unfold wf_template in *.
  by rewrite forallb_app, Hwf1, Hwf2.
Qed.

Lemma expandBraces_app_two_groups :
  balanced "{a,b}" = true ∧ balanced "-{c,d}" = true ∧
  yields "{a,b}" ["a"; "b"] ∧ yields "-{c,d}" ["-c"; "-d"] ∧
  yields "{a,b}-{c,d}" ["a-c"; "b-c"; "a-d"; "b-d"].
Proof.
  assert (yields "{a,b}" ["a"; "b"]) as H1 by by apply (yields_intro _ _ 10).
  assert (yields "-{c,d}" ["-c"; "-d"]) as H2 by by apply (yields_intro _ _ 10).
  split; [reflexivity|]. split; [reflexivity|]. split; [exact H1|].
  split; [exact H2|].
  exact (expandBraces_app "{a,b}" "-{c,d}" _ _ eq_refl eq_refl H1 H2).
Defined.

(** X7: the outputs of a group are the outputs of its alternatives, one
    alternative after the other. An alternative is a balanced string whose
    commas lie inside braces. *)
Theorem expandBraces_group (alts : list string) (ls : list (list string)) :
  alts ≠ [] →
  Forall2 (λ a l, plain_at false 0 a = true ∧ yields a l) alts ls →
  yields ("{" +:+ join_commas alts +:+ "}") (concat ls).
Proof.
  intros Hne Hall.
  assert (∃ ts : list (list piece),
            render_template <$> ts = alts ∧
            forallb (forallb (wf_piece true)) ts = true ∧
            concat (template_odometer <$> ts) = concat ls)
    as (ts & <- & Hwf & <-).
  { clear Hne. induction Hall as [|a l alts ls [Ha Hl] _ (ts & <- & Hwf & Hout)].
    { by exists []. }
    destruct (template_of_plain _ a true (Nat.le_refl _) Ha) as (t & Hwft & <-).
    exists (t :: ts). split; [done|]. split; [cbn; by rewrite Hwft, Hwf|].
    cbn. rewrite Hout. f_equal.
    eapply yields_unique; [|done]. apply yields_wf_template.
    apply forallb_forall. intros p Hp.
    by apply wf_piece_inner, (proj1 (forallb_forall _ _) Hwft). }
  assert (wf_template [Group ts] = true) as Hwf'.
  { cbn. rewrite Hwf, !andb_true_r.
    apply negb_true_iff, bool_decide_eq_false. by intros ->. }
  pose proof (yields_wf_template _ Hwf') as H.
  rewrite render_template_cons, template_odometer_cons in H.
  change (render_template []) with "" in H.
  change (template_odometer []) with [""] in H.
  by rewrite string_app_nil_r, cross_unit_r in H.
Qed.

Lemma expandBraces_group_thumbnail :
  ["png"; "jp{e,}g"] ≠ [] ∧
  Forall2 (λ a l, plain_at false 0 a = true ∧ yields a l)
          ["png"; "jp{e,}g"] [["png"]; ["jpeg"; "jpg"]] ∧
  yields "{png,jp{e,}g}" ["png"; "jpeg"; "jpg"].
Proof.
  assert (Forall2 (λ a l, plain_at false 0 a = true ∧ yields a l)
            ["png"; "jp{e,}g"] [["png"]; ["jpeg"; "jpg"]]) as H.
  { repeat constructor; by apply (yields_intro _ _ 10). }
  split; [done|]. split; [exact H|].
  exact (expandBraces_group ["png"; "jp{e,}g"] [["png"]; ["jpeg"; "jpg"]]
           ltac:(done) H).
Defined.

Lemma no_braces_app (s t : string) :
  no_braces (s +:+ t) = no_braces s && no_braces t.
Proof.
  induction s as [|c s IH]; [done|].
  rewrite string_app_cons. cbn. by rewrite IH, andb_assoc.
Qed.

Lemma cross_no_braces (xs ys : list string) :
  Forall (λ s, no_braces s = true) xs → Forall (λ s, no_braces s = true) ys →
  Forall (λ s, no_braces s = true) (cross xs ys).
Proof.
  intros Hxs Hys. induction Hys as [|y ys Hy _ IH]; [done|].
  rewrite cross_cons. apply Forall_app. split; [|done].
  apply Forall_fmap. eapply Forall_impl; [done|]. cbn. intros x Hx.
  by rewrite no_braces_app, Hx, Hy.
Qed.

Lemma odometer_no_braces (p : piece) :
  ∀ inner, wf_piece inner p = true →
           Forall (λ s, no_braces s = true) (odometer p).
Proof.
  induction p as [s | alts IH] using piece_ind; intros inner.
  - cbn. intros [Hs _]%andb_true_iff. by constructor.
  - cbn [wf_piece odometer]. intros [_ Hwf]%andb_true_iff.
    induction IH as [|t alts Ht _ IHalts]; [done|].
    cbn in Hwf. apply andb_true_iff in Hwf as [Hwft Hwf].
    rewrite fmap_cons. cbn [concat]. apply Forall_app. split; [|by apply IHalts].
    clear IHalts Hwf. induction Ht as [|q t Hq _ IHt]; [by repeat constructor|].
    cbn in Hwft. apply andb_true_iff in Hwft as [Hwfq Hwft].
    rewrite template_odometer_cons. apply cross_no_braces; [by eapply Hq | by apply IHt].
Qed.

(** X8: no string yielded on a string with balanced braces has a brace. *)
Theorem expandBraces_outputs_no_braces (str : string) (l : list string) :
  balanced str = true → yields str l →
  Forall (λ s, no_braces s = true) l.
Proof.
  intros (t & Hwf & <-)%balanced_template Hl.
  rewrite (yields_unique _ _ _ Hl (yields_wf_template t Hwf)).
  clear Hl. induction t as [|p t IH]; [by repeat constructor|].
  cbn in Hwf. apply andb_true_iff in Hwf as [Hwfp Hwf].
  rewrite template_odometer_cons.
  apply cross_no_braces; [by eapply odometer_no_braces | by apply IH].
Qed.

Lemma expandBraces_outputs_no_braces_thumbnail :
  balanced "thumbnail.{png,jp{e,}g}" = true ∧
  yields "thumbnail.{png,jp{e,}g}"
         ["thumbnail.png"; "thumbnail.jpeg"; "thumbnail.jpg"] ∧
  Forall (λ s, no_braces s = true)
         ["thumbnail.png"; "thumbnail.jpeg"; "thumbnail.jpg"].
Proof.
  assert (yields "thumbnail.{png,jp{e,}g}"
            ["thumbnail.png"; "thumbnail.jpeg"; "thumbnail.jpg"]) as H
    by by apply (yields_intro _ _ 50).
  split; [reflexivity|]. split; [exact H|].
  exact (expandBraces_outputs_no_braces "thumbnail.{png,jp{e,}g}" _ eq_refl H).
Defined.

(** ** The text kept by the constructors *)

Lemma array_text_app (a b : list item) :
  array_text (a ++ b) = array_text a +:+ array_text b.
Proof.
  induction a as [|v a IH]; [done|]. cbn. unfold array_text_with in IH.
  by rewrite IH, string_app_assoc.
Qed.

Lemma array_text_pushed (values : list item) (value : string) (b : bool) :
  array_text (if truthy value || b then values ++ [Str value] else values)
  = array_text values +:+ value.
Proof.
  destruct value, b; cbn [truthy orb];
    rewrite ?array_text_app; cbn; by rewrite ?string_app_nil_r.
Qed.

Lemma getArray_loop_template_text mk (t : list piece) rest values value r :
  Forall (λ p, wf_piece false p = true ∧ group_text_parsed mk p) t →
  getArray_loop mk (render_template t +:+ rest) values value 0 = Some r →
  ∃ values' value',
    getArray_loop mk rest values' value' 0 = Some r ∧
    array_text values' +:+ value' =
      (array_text values +:+ value) +:+ render_template t.
Proof.
  intros Ht. revert values value.
  induction Ht as [|p t [Hwf Hp] _ IH]; intros values value.
  { intros Hr. exists values, value. by rewrite string_app_nil_r. }
  rewrite render_template_cons, string_app_assoc.
  destruct p as [s|alts].
  - cbn [render]. cbn in Hwf. rewrite andb_true_r in Hwf.
    rewrite getArray_loop_no_braces by done. intros Hr.
    destruct (IH _ _ Hr) as (values' & value' & Hr' & Htext).
    exists values', value'. split; [done|]. rewrite Htext.
    by rewrite !string_app_assoc.
  - cbn [wf_piece] in Hwf. apply andb_true_iff in Hwf as [_ Hwf].
    apply alternatives_plain in Hwf. cbn [group_text_parsed render] in *.
    set (body := join_commas (render_template <$> alts)) in *.
    rewrite group_text_app.
    cbn [getArray_loop]. change (Ascii.eqb "{" "}") with false.
    change (Ascii.eqb "{" "{") with true. cbv iota.
    change (0 =? 0) with true. cbv iota. change (0 + 1) with (Z.of_nat (1 + 0)).
    rewrite getArray_loop_plain by done. rewrite string_app_nil_l.
    cbn [getArray_loop]. change (Ascii.eqb "}" "}") with true. cbv iota.
    change (Z.of_nat 1 - 1 =? 0) with true. cbv iota.
    destruct (mk body) as [v|] eqn:Hv; [|done]. cbn [mbind option_bind].
    intros Hr. destruct (IH _ _ Hr) as (values' & value' & Hr' & Htext).
    exists values', value'. split; [done|]. rewrite Htext.
    rewrite string_app_nil_r, array_text_app. cbn [array_text_with foldr].
    rewrite (Hp v eq_refl), string_app_nil_r.
    rewrite <- (orb_false_r (truthy value)), array_text_pushed.
    by rewrite !string_app_assoc.
Qed.

Lemma getArray_template_text fuel (t : list piece) addEmpty arr :
  Forall (λ p, wf_piece false p = true ∧
               group_text_parsed (getVariants fuel) p) t →
  getArray (S fuel) (render_template t) addEmpty = Some arr →
  array_text arr = render_template t.
Proof.
  intros Ht. cbn [getArray].
  destruct (getArray_loop (getVariants fuel) (render_template t) [] "" 0)
    as [[values value]|] eqn:Hloop; [|done].
  rewrite <- (string_app_nil_r (render_template t)) in Hloop.
  apply (getArray_loop_template_text _ _ _ _ _ _ Ht) in Hloop
    as (values' & value' & [= -> ->] & Htext).
  cbn [mbind option_bind]. intros [= <-].
  by rewrite array_text_pushed, Htext.
Qed.

Lemma getVariants_group_text (p : piece) :
  ∀ inner fuel, wf_piece inner p = true →
                group_text_parsed (getVariants fuel) p.
Proof.
  induction p as [s | alts IH] using piece_ind; intros inner fuel Hwf; [done|].
  cbn [wf_piece] in Hwf.
  apply andb_true_iff in Hwf as [Hne%negb_true_iff%bool_decide_eq_false Hwf].
  intros v. destruct fuel as [|fuel]; [done|]. cbn [getVariants].
  set (mk := λ s, getArray fuel s true).
  destruct (getVariants_loop mk _ [] "" 0) as [[values value]|] eqn:Hloop; [|done].
  apply getVariants_loop_alternatives in Hloop
    as (front & t & arrs & Halts & [= -> ->] & Hall); [|done|].
  2:{ apply Forall_forall. intros t Ht. apply alternative_plain.
      by apply (proj1 (forallb_forall _ _) Hwf), list_elem_of_In. }
  cbn [mbind option_bind].
  destruct (getArray fuel (render_template t) true) as [a|] eqn:Ha; [|done].
  cbn [mbind option_bind]. intros [= <-]. cbn [item_text render app].
  do 3 f_equal.
  assert (Hparsed : ∀ t' arr, t' ∈ alts → mk (render_template t') = Some arr →
            array_text arr = render_template t').
  { intros t' arr Ht'. unfold mk. destruct fuel as [|fuel']; [done|].
    apply getArray_template_text, Forall_forall. intros q Hq.
    pose proof (proj1 (forallb_forall _ _)
      (proj1 (forallb_forall _ _) Hwf t' (proj1 (list_elem_of_In _ _) Ht'))
      q (proj1 (list_elem_of_In _ _) Hq)) as Hwfq.
    split; [by apply wf_piece_inner|].
    by apply (proj1 (Forall_forall _ _) (proj1 (Forall_forall _ _) IH t' Ht')
                q Hq true). }
  rewrite Halts in Hparsed |- *. clear Halts Hwf IH Hne.
  rewrite !fmap_app. f_equal.
  - induction Hall as [|t' arr front arrs Harr _ IHall]; [done|]. cbn.
    f_equal.
    + apply (Hparsed t' arr); [|done]. apply elem_of_app. left. by left.
    + apply IHall. intros t'' arr' Ht''. apply Hparsed.
      apply elem_of_app in Ht'' as [Ht''|Ht'']; apply elem_of_app;
        [left; by right | by right].
  - cbn. f_equal. apply (Hparsed t a); [|done]. apply elem_of_app. right. by left.
Qed.

(** X12: the constructors lose no character of a string with balanced
    braces: the text of the array that [getArray] builds, its groups written
    between braces with commas between their alternatives, is the string
    itself. *)
Theorem getArray_text fuel (str : string) addEmpty arr :
  balanced str = true →
  getArray fuel str addEmpty = Some arr →
  array_text arr = str.
Proof.
  intros (t & Hwf & <-)%balanced_template. destruct fuel as [|fuel]; [done|].
  apply getArray_template_text, Forall_forall. intros p Hp.
  pose proof (proj1 (forallb_forall _ _) Hwf p (proj1 (list_elem_of_In _ _) Hp)).
  split; [done|]. by eapply getVariants_group_text.
Qed.

Lemma getArray_text_thumbnail :
  balanced "thumbnail.{png,jp{e,}g}" = true ∧
  getArray 50 "thumbnail.{png,jp{e,}g}" false =
    Some [Str "thumbnail.";
          Variants [[Str "png"];
                    [Str "jp"; Variants [[Str "e"]; [Str ""]] 0; Str "g"]] 0] ∧
  array_text
    [Str "thumbnail.";
     Variants [[Str "png"];
               [Str "jp"; Variants [[Str "e"]; [Str ""]] 0; Str "g"]] 0]
  = "thumbnail.{png,jp{e,}g}".
Proof.
  split; [reflexivity|]. split; [reflexivity|].
  exact (getArray_text 50 "thumbnail.{png,jp{e,}g}" false _ eq_refl eq_refl).
Defined.

(** The text is not kept when the braces are not balanced. *)
Example getArray_text_unclosed :
  getArray 50 "x{a" false = Some [Str "x"; Str "a"] ∧
  array_text [Str "x"; Str "a"] = "xa".
Proof. by split. Qed.

(** ** One step of the compass loops *)

Lemma JsArray_set_length {A} (arr : list (option A)) k v :
  length (JsArray.set arr k v) = (length arr `max` S (Z.to_nat k))%nat.
Proof.
  unfold JsArray.set. destruct (Nat.ltb_spec (Z.to_nat k) (length arr)).
  - rewrite length_insert. lia.
  - rewrite !length_app, length_replicate. cbn. lia.
Qed.

Lemma JsArray_set_lookup_ne {A} (arr : list (option A)) k v (n : nat) :
  n ≠ Z.to_nat k → (n < length arr)%nat →
  JsArray.set arr k v !! n = arr !! n.
Proof.
  intros Hne Hn. unfold JsArray.set.
  destruct (Nat.ltb_spec (Z.to_nat k) (length arr)).
  - by rewrite list_lookup_insert_ne.
  - by rewrite lookup_app_l.
Qed.

Lemma JsArray_get_set {A} (arr : list (option A)) k v :
  0 ≤ k → JsArray.get (JsArray.set arr k v) k = Some v.
Proof.
  intros Hk. unfold JsArray.get, JsArray.set.
  destruct (Z.ltb_spec k 0); [lia|].
  destruct (Nat.ltb_spec (Z.to_nat k) (length arr)).
  - by rewrite list_lookup_insert_eq.
  - rewrite lookup_app_r by done.
    rewrite lookup_app_r by (rewrite length_replicate; lia).
    rewrite length_replicate, Nat.sub_diag. done.
Qed.

(** X3: for the [i] and [j] the loops go through, a step writes one slot
    of [result], at an index from 0 to 31, leaves a string there and leaves
    every other slot as it is: the array never grows beyond 32 entries. *)
Theorem compass_step_frame (i j : Z) (result : list (option string)) :
  0 ≤ i < 4 → -5 ≤ j ≤ 5 →
  ∃ pos : nat, (pos < 32)%nat ∧
    Z.of_nat pos = Z.rem (i * 8 + j + 32) 32 ∧
    length (compass_step i result j) = (length result `max` S pos)%nat ∧
    is_Some (JsArray.get (compass_step i result j) (Z.of_nat pos)) ∧
    ∀ n : nat, n ≠ pos → (n < length result)%nat →
               compass_step i result j !! n = result !! n.
Proof.
  intros Hi Hj.
  assert (0 ≤ Z.rem (i * 8 + j + 32) 32 < 32) as Hpos.
  { rewrite Z.rem_mod_nonneg by lia. apply Z.mod_pos_bound. lia. }
  exists (Z.to_nat (Z.rem (i * 8 + j + 32) 32)).
  rewrite Z2Nat.id by lia. unfold compass_step.
  set (pos := Z.rem (i * 8 + j + 32) 32) in *.
  split; [lia|]. split; [done|].
  destruct (j =? 0).
  - split; [apply JsArray_set_length|].
    split; [by rewrite JsArray_get_set by lia|].
    intros n Hn Hlen. by apply JsArray_set_lookup_ne.
  - split; [rewrite !JsArray_set_length; lia|].
    split; [by rewrite JsArray_get_set by lia|].
    intros n Hn Hlen.
    rewrite JsArray_set_lookup_ne; [by apply JsArray_set_lookup_ne|done|].
    rewrite JsArray_set_length. lia.
Qed.

Lemma compass_step_frame_first :
  0 ≤ 0 < 4 ∧ -5 ≤ -5 ≤ 5 ∧
  ∃ pos : nat, (pos < 32)%nat ∧
    Z.of_nat pos = Z.rem (0 * 8 + -5 + 32) 32 ∧
    length (compass_step 0 [] (-5)) = (length ([] : list (option string)) `max` S pos)%nat ∧
    is_Some (JsArray.get (compass_step 0 [] (-5)) (Z.of_nat pos)) ∧
    ∀ n : nat, n ≠ pos → (n < length ([] : list (option string)))%nat →
               compass_step 0 [] (-5) !! n = ([] : list (option string)) !! n.
Proof.
  split; [lia|]. split; [lia|]. apply (compass_step_frame 0 (-5) []); lia.
Defined.

(** ** The length of the outputs *)

Lemma join_commas_length (l : list string) :
  Forall (λ s, (String.length s ≤ String.length (join_commas l))%nat) l.
Proof.
  induction l as [|s l IH]; [done|]. destruct l as [|s' l].
  { by repeat constructor. }
  rewrite (join_commas_cons s (s' :: l)) by done.
  rewrite string_app_length. cbn [String.length]. constructor; [lia|].
  eapply Forall_impl; [exact IH|]. cbn beta. intros a Ha. lia.
Qed.

Lemma cross_length_le (xs ys : list string) (n m : nat) :
  Forall (λ s, (String.length s ≤ n)%nat) xs →
  Forall (λ s, (String.length s ≤ m)%nat) ys →
  Forall (λ s, (String.length s ≤ n + m)%nat) (cross xs ys).
Proof.
  intros Hxs Hys. induction Hys as [|y ys Hy _ IH]; [done|].
  rewrite cross_cons. apply Forall_app. split; [|done].
  apply Forall_fmap. eapply Forall_impl; [done|]. cbn. intros x Hx.
  rewrite string_app_length. lia.
Qed.

Lemma template_odometer_length_le (t : list piece) :
  Forall (λ p, Forall (λ s, (String.length s ≤ String.length (render p))%nat)
                      (odometer p)) t →
  Forall (λ s, (String.length s ≤ String.length (render_template t))%nat)
         (template_odometer t).
Proof.
  induction 1 as [|p t Hp _ IH]; [by repeat constructor|].
  rewrite template_odometer_cons, render_template_cons, string_app_length.
  by apply cross_length_le.
Qed.

Lemma odometer_length_le (p : piece) :
  Forall (λ s, (String.length s ≤ String.length (render p))%nat) (odometer p).
Proof.
  induction p as [s | alts IH] using piece_ind; [by repeat constructor|].
  cbn [odometer render].
  pose proof (join_commas_length (render_template <$> alts)) as Hjoin.
  rewrite Forall_fmap in Hjoin.
  apply Forall_concat, Forall_fmap, Forall_forall. intros t Ht. cbn [compose].
  eapply Forall_impl.
  { apply template_odometer_length_le, (proj1 (Forall_forall _ _) IH t Ht). }
  cbn beta. intros s Hs.
  pose proof (proj1 (Forall_forall _ _) Hjoin t Ht) as Hlen. cbn in Hlen.
  rewrite !string_app_length. cbn [String.length]. lia.
Qed.

(** X13: no string yielded on a string with balanced braces is longer than
    that string. *)
Theorem expandBraces_outputs_length (str : string) (l : list string) :
  balanced str = true → yields str l →
  Forall (λ s, (String.length s ≤ String.length str)%nat) l.
Proof.
  intros (t & Hwf & <-)%balanced_template Hl.
  rewrite (yields_unique _ _ _ Hl (yields_wf_template t Hwf)).
  apply template_odometer_length_le, Forall_forall. intros p _.
  apply odometer_length_le.
Qed.

Lemma expandBraces_outputs_length_thumbnail :
  balanced "thumbnail.{png,jp{e,}g}" = true ∧
  yields "thumbnail.{png,jp{e,}g}"
         ["thumbnail.png"; "thumbnail.jpeg"; "thumbnail.jpg"] ∧
  Forall (λ s, (String.length s ≤ String.length "thumbnail.{png,jp{e,}g}")%nat)
         ["thumbnail.png"; "thumbnail.jpeg"; "thumbnail.jpg"].
Proof.
  assert (yields "thumbnail.{png,jp{e,}g}"
            ["thumbnail.png"; "thumbnail.jpeg"; "thumbnail.jpg"]) as H
    by by apply (yields_intro _ _ 50).
  split; [reflexivity|]. split; [exact H|].
  exact (expandBraces_outputs_length "thumbnail.{png,jp{e,}g}" _ eq_refl H).
Defined.

(** * Two calls of expandBraces *)

(** ** The objects in the store and the objects with their positions *)

Lemma array_cells_cons v (a : list obj) :
  array_cells (v :: a) = cells v ++ array_cells a.
Proof. done. Qed.

Lemma array_cells_app (a b : list obj) :
  array_cells (a ++ b) = array_cells a ++ array_cells b.
Proof. unfold array_cells_with. by rewrite fmap_app, concat_app. Qed.

Lemma elem_of_concat {A} (x : A) (ls : list (list A)) :
  x ∈ concat ls ↔ ∃ l, x ∈ l ∧ l ∈ ls.
Proof.
  induction ls as [|k ls IH]; cbn.
  - split; [by intros ?%elem_of_nil|]. by intros (l & _ & ?%elem_of_nil).
  - rewrite elem_of_app, IH. split.
    + intros [Hx|(l & Hx & Hl)]; [exists k|exists l]; split; try done;
        [by left | by right].
    + intros (l & Hx & [->|Hl]%elem_of_cons); [by left|]. right. by exists l.
Qed.

Lemma cells_lookup (values : list (list obj)) i a c :
  values !! i = Some a → c ∈ array_cells a →
  c ∈ concat (array_cells <$> values).
Proof.
  intros Ha Hc. apply elem_of_concat. exists (array_cells a).
  split; [done|]. apply list_elem_of_fmap. exists a. split; [done|].
  by eapply list_elem_of_lookup_2.
Qed.

Lemma cells_lookup_NoDup (values : list (list obj)) i a :
  values !! i = Some a → NoDup (concat (array_cells <$> values)) →
  NoDup (array_cells a).
Proof.
  revert i. induction values as [|b values IH]; intros [|i]; try done.
  - intros [= ->]. cbn. by intros [? _]%NoDup_app.
  - cbn. intros Ha (_ & _ & Hnd)%NoDup_app. by eapply IH.
Qed.

Lemma cells_lookup_disjoint (values : list (list obj)) i j a b c :
  i ≠ j → values !! i = Some a → values !! j = Some b →
  NoDup (concat (array_cells <$> values)) →
  c ∈ array_cells a → c ∉ array_cells b.
Proof.
  revert i j. induction values as [|d values IH]; intros [|i] [|j]; try done.
  - intros _ [= ->] Hb. cbn. intros (_ & Hdis & _)%NoDup_app Hc Hc'.
    apply (Hdis c Hc). by eapply cells_lookup.
  - intros _ Ha [= ->]. cbn. intros (_ & Hdis & _)%NoDup_app Hc Hc'.
    apply (Hdis c Hc'). by eapply cells_lookup.
  - intros Hij Ha Hb. cbn. intros (_ & _ & Hnd)%NoDup_app.
    apply (IH i j); [congruence|done..].
Qed.

(** [erase] reads the store at the variables of the object only. *)
Lemma erase_ext (σ σ' : list nat) (v : obj) :
  (∀ c, c ∈ cells v → default 0%nat (σ !! c) = default 0%nat (σ' !! c)) →
  erase σ v = erase σ' v.
Proof.
  induction v as [s | values position IH] using obj_ind; intros Hc; [done|].
  cbn [erase]. f_equal; [|apply Hc; by left].
  apply list_eq. intros i. rewrite !list_lookup_fmap.
  destruct (values !! i) as [a|] eqn:Ha; [|done]. cbn. f_equal.
  pose proof (proj1 (Forall_lookup _ _) IH i a Ha) as IHa.
  assert (∀ c, c ∈ array_cells a →
            default 0%nat (σ !! c) = default 0%nat (σ' !! c)) as Hca.
  { intros c Hin. apply Hc. right. by eapply cells_lookup. }
  clear Ha. induction IHa as [|w a Hw _ IHa']; [done|]. cbn. f_equal.
  - apply Hw. intros c Hin. apply Hca.
    rewrite array_cells_cons. apply elem_of_app. by left.
  - apply IHa'. intros c Hin. apply Hca.
    rewrite array_cells_cons. apply elem_of_app. by right.
Qed.

Lemma erase_array_ext (σ σ' : list nat) (a : list obj) :
  (∀ c, c ∈ array_cells a →
        default 0%nat (σ !! c) = default 0%nat (σ' !! c)) →
  erase σ <$> a = erase σ' <$> a.
Proof.
  induction a as [|v a IH]; [done|]. rewrite array_cells_cons. intros Hc.
  cbn. f_equal.
  - apply erase_ext. intros c Hin. apply Hc, elem_of_app. by left.
  - apply IH. intros c Hin. apply Hc, elem_of_app. by right.
Qed.

Lemma owned_app σ cs1 cs2 :
  owned σ (cs1 ++ cs2) →
  owned σ cs1 ∧ owned σ cs2 ∧ (∀ c, c ∈ cs1 → c ∉ cs2).
Proof.
  intros [[H1 H2]%Forall_app (Hn1 & Hdis & Hn2)%NoDup_app]. by repeat split.
Qed.

Lemma owned_length σ σ' cs :
  length σ' = length σ → owned σ cs → owned σ' cs.
Proof. intros Hlen [Hlt Hnd]. split; [|done]. by rewrite Hlen. Qed.

Lemma owned_lookup σ (values : list (list obj)) i a :
  values !! i = Some a →
  owned σ (concat (array_cells <$> values)) → owned σ (array_cells a).
Proof.
  intros Ha [Hlt Hnd]. split; [|by eapply cells_lookup_NoDup].
  apply Forall_forall. intros c Hc.
  apply (proj1 (Forall_forall _ _) Hlt). by eapply cells_lookup.
Qed.

(** ** [current] and [next] in the store *)

Lemma array_current_in_erase_with σ (a : list obj) :
  Forall (λ v, current_in σ v = current (erase σ v)) a →
  array_current_in σ a = array_current (erase σ <$> a).
Proof.
  intros H. unfold getArray_current_in, getArray_current.
  generalize (Some ""). induction H as [|v a Hv _ IH]; intros r; [done|].
  cbn. rewrite Hv. apply IH.
Qed.

Lemma current_in_erase σ (v : obj) :
  Forall (λ c, (c < length σ)%nat) (cells v) →
  current_in σ v = current (erase σ v).
Proof.
  induction v as [s | values position IH] using obj_ind; [done|].
  cbn [cells]. intros [Hp Hcs]%Forall_cons.
  destruct (lookup_lt_is_Some_2 σ position Hp) as [p Hpos].
  cbn [current_in erase]. rewrite Hpos. cbn [mbind option_bind].
  change (default 0%nat (Some p)) with p.
  rewrite current_Variants, !list_lookup_fmap.
  destruct (values !! p) as [a|] eqn:Ha; [|done]. cbn.
  apply array_current_in_erase_with.
  pose proof (proj1 (Forall_lookup _ _) IH p a Ha) as IHa.
  apply Forall_forall. intros w Hw.
  apply (proj1 (Forall_forall _ _) IHa w Hw).
  apply Forall_forall. intros c Hc.
  apply (proj1 (Forall_forall _ _) Hcs). eapply cells_lookup; [done|].
  apply elem_of_concat. exists (cells w). split; [done|].
  by apply list_elem_of_fmap_2.
Qed.

Lemma array_current_in_erase σ (a : list obj) :
  Forall (λ c, (c < length σ)%nat) (array_cells a) →
  array_current_in σ a = array_current (erase σ <$> a).
Proof.
  intros Hcs. apply array_current_in_erase_with, Forall_forall. intros v Hv.
  apply current_in_erase, Forall_forall. intros c Hc.
  apply (proj1 (Forall_forall _ _) Hcs).
  apply elem_of_concat. exists (cells v). split; [done|].
  by apply list_elem_of_fmap_2.
Qed.

Lemma erase_frame (σ σ' : list nat) (v : obj) :
  (∀ c, c ∈ cells v → σ' !! c = σ !! c) → erase σ' v = erase σ v.
Proof. intros H. apply erase_ext. intros c Hc. by rewrite H. Qed.

Lemma erase_array_frame (σ σ' : list nat) (a : list obj) :
  (∀ c, c ∈ array_cells a → σ' !! c = σ !! c) →
  erase σ' <$> a = erase σ <$> a.
Proof. intros H. apply erase_array_ext. intros c Hc. by rewrite H. Qed.

Lemma array_next_in_simulated (a : list obj) :
  Forall (next_simulated cells erase next_in next) a →
  next_simulated array_cells (λ σ, fmap (erase σ)) array_next_in array_next a.
Proof.
  induction 1 as [|v a Hv _ IH]; intros σ Hown; [done|].
  rewrite array_cells_cons in Hown.
  apply owned_app in Hown as (Hownv & Howna & Hdis).
  cbn [getArray_next_in]. rewrite fmap_cons, array_next_cons.
  specialize (Hv σ Hownv).
  destruct (next_in v σ) as [[more σ1]|]; [|by rewrite Hv].
  destruct Hv as (-> & Hlen1 & Hframe1). cbn [mbind option_bind].
  assert (erase σ1 <$> a = erase σ <$> a) as Ha1.
  { apply erase_array_frame. intros c Hc. apply Hframe1.
    intros Hcv. by apply (Hdis c Hcv). }
  destruct more.
  - cbn beta. rewrite fmap_cons, Ha1. split; [done|]. split; [done|].
    intros c Hc. apply Hframe1. rewrite array_cells_cons in Hc.
    intros Hcv. apply Hc, elem_of_app. by left.
  - specialize (IH σ1 (owned_length _ _ _ Hlen1 Howna)). cbn beta in IH.
    rewrite Ha1 in IH.
    destruct (getArray_next_in next_in a σ1) as [[more σ2]|]; [|by rewrite IH].
    destruct IH as (-> & Hlen2 & Hframe2). cbn [mbind option_bind]. cbn beta.
    rewrite fmap_cons. split; [|split; [congruence|]].
    + do 3 f_equal. symmetry. apply erase_frame. intros c Hc.
      apply Hframe2. by apply Hdis.
    + intros c Hc. rewrite array_cells_cons in Hc.
      rewrite Hframe2, Hframe1; [done|..]; intros Hin; apply Hc, elem_of_app;
        [by left | by right].
Qed.

Lemma next_in_simulated (v : obj) :
  next_simulated cells erase next_in next v.
Proof.
  induction v as [s | values loc IH] using obj_ind; intros σ Hown; [done|].
  cbn [cells] in Hown. destruct Hown as [[Hloc Hlt]%Forall_cons Hnd].
  apply NoDup_cons in Hnd as [Hfresh Hnd].
  assert (owned σ (concat (array_cells <$> values))) as Hown by done.
  destruct (lookup_lt_is_Some_2 σ loc Hloc) as [p Hp].
  cbn [next_in erase]. rewrite Hp. cbn [mbind option_bind].
  change (default 0%nat (Some p)) with p.
  rewrite next_Variants, !list_lookup_fmap.
  destruct (values !! p) as [a|] eqn:Ha; [|done]. cbn [fmap option_fmap option_map mjoin option_join mbind option_bind].
  pose proof (array_next_in_simulated a (proj1 (Forall_lookup _ _) IH p a Ha)
                σ (owned_lookup _ _ _ _ Ha Hown)) as Hsim. cbn beta in Hsim.
  destruct (getArray_next_in next_in a σ) as [[more σ1]|]; [|by rewrite Hsim].
  destruct Hsim as (-> & Hlen1 & Hframe1). cbn [mbind option_bind].
  assert (Hloc_a : loc ∉ array_cells a).
  { intros Hin. apply Hfresh. by eapply cells_lookup. }
  assert (Hvalues : ∀ σ', length σ' = length σ →
            (∀ c, c ∈ concat (array_cells <$> values) → σ' !! c = σ1 !! c) →
            <[p := erase σ1 <$> a]> (fmap (M := list) (erase σ) <$> values)
            = fmap (M := list) (erase σ') <$> values).
  { intros σ' Hlen' Hsame. apply list_eq. intros i.
    destruct (decide (i = p)) as [->|Hip].
    - rewrite list_lookup_insert_eq
        by (rewrite length_fmap; by eapply lookup_lt_Some).
      rewrite list_lookup_fmap, Ha. cbn. f_equal. symmetry.
      apply erase_array_frame. intros c Hc. apply Hsame. by eapply cells_lookup.
    - rewrite list_lookup_insert_ne by done. rewrite !list_lookup_fmap.
      destruct (values !! i) as [b|] eqn:Hb; [|done]. cbn. f_equal. symmetry.
      apply erase_array_frame. intros c Hc.
      rewrite Hsame by by eapply cells_lookup. apply Hframe1.
      intros Hca. by apply (cells_lookup_disjoint values p i a b c). }
  assert (Hpos1 : σ1 !! loc = Some p) by by rewrite Hframe1.
  assert (Hloc1 : (loc < length σ1)%nat) by lia.
  assert (Hother : ∀ q c, c ∈ concat (array_cells <$> values) →
            <[loc := q]> σ1 !! c = σ1 !! c).
  { intros q c Hc. apply list_lookup_insert_ne. by intros ->. }
  destruct more.
  - split; [|split; [done|]].
    + rewrite (Hvalues σ1) by done. by rewrite Hpos1.
    + intros c Hc. apply Hframe1. intros Hin. apply Hc. right.
      by eapply cells_lookup.
  - rewrite Hpos1. cbn [mbind option_bind].
    rewrite list_lookup_insert_eq by done. cbn [mbind option_bind].
    rewrite length_insert, length_fmap.
    destruct (S p <? length values)%nat.
    + split; [|split; [by rewrite length_insert|]].
      * rewrite (Hvalues (<[loc := S p]> σ1)); [|by rewrite length_insert|by apply Hother].
        by rewrite list_lookup_insert_eq.
      * intros c Hc. rewrite list_lookup_insert_ne by (intros ->; apply Hc; by left).
        apply Hframe1. intros Hin. apply Hc. right. by eapply cells_lookup.
    + split; [|split; [by rewrite !length_insert|]].
      * rewrite (Hvalues (<[loc := 0%nat]> (<[loc := S p]> σ1)));
          [|by rewrite !length_insert|].
        -- by rewrite list_lookup_insert_eq by by rewrite length_insert.
        -- intros c Hc. by rewrite list_insert_insert_eq, Hother.
      * intros c Hc.
        rewrite !list_lookup_insert_ne by (intros ->; apply Hc; by left).
        apply Hframe1. intros Hin. apply Hc. right. by eapply cells_lookup.
Qed.

Lemma array_next_in_erase (a : list obj) σ :
  owned σ (array_cells a) →
  match array_next_in a σ with
  | Some (more, σ') =>
      array_next (erase σ <$> a) = Some (more, erase σ' <$> a) ∧
      length σ' = length σ ∧
      ∀ c, c ∉ array_cells a → σ' !! c = σ !! c
  | None => array_next (erase σ <$> a) = None
  end.
Proof.
  apply (array_next_in_simulated a). apply Forall_forall. intros v _.
  apply next_in_simulated.
Qed.

(** ** The constructors in the store *)

Lemma replicate_app_assoc (σ : list nat) n m :
  (σ ++ replicate n 0%nat) ++ replicate m 0%nat = σ ++ replicate (n + m) 0%nat.
Proof. by rewrite <- app_assoc, replicate_add. Qed.

Lemma seq_app_assoc (cs : list nat) (σ : list nat) n m :
  (cs ++ seq (length σ) n) ++ seq (length (σ ++ replicate n 0%nat)) m
  = cs ++ seq (length σ) (n + m).
Proof.
  rewrite <- app_assoc, length_app, length_replicate. f_equal.
  by rewrite seq_app.
Qed.

Section loops_in.
Variable mk : string → option item.
Variable mk_in : string → list nat → option (obj * list nat).
Hypothesis mk_sim : ∀ s v σ, mk s = Some v →
  ∃ o n, mk_in s σ = Some (o, σ ++ replicate n 0%nat) ∧
         erase [] o = v ∧ cells o = seq (length σ) n.

Lemma getArray_loop_in_sim str :
  ∀ values value skip r os σ,
    getArray_loop mk str values value skip = Some r →
    erase [] <$> os = values →
    ∃ os' n,
      getArray_loop_in mk_in str os value skip σ
        = Some (os', r.2, σ ++ replicate n 0%nat) ∧
      erase [] <$> os' = r.1 ∧
      array_cells os' = array_cells os ++ seq (length σ) n.
Proof.
  induction str as [|c str IH]; intros values value skip r os σ.
  { cbn. intros [= <-] Hos. exists os, 0%nat. cbn. by rewrite !app_nil_r. }
  cbn [getArray_loop getArray_loop_in]. intros Hr Hos.
  destruct (Ascii.eqb c "}").
  - destruct (skip - 1 =? 0); [|by eapply IH].
    destruct (mk value) as [v|] eqn:Hv; [|done]. cbn [mbind option_bind] in Hr.
    destruct (mk_sim _ _ σ Hv) as (o & n1 & -> & Ho & Hcells).
    cbn [mbind option_bind].
    destruct (IH _ _ _ _ (os ++ [o]) (σ ++ replicate n1 0%nat) Hr)
      as (os' & n2 & -> & Hos' & Hcells').
    { by rewrite fmap_app, Hos, <- Ho. }
    exists os', (n1 + n2)%nat. rewrite replicate_app_assoc. split; [done|].
    split; [done|]. rewrite Hcells', array_cells_app.
    unfold array_cells_with at 2. cbn. rewrite app_nil_r, Hcells.
    apply seq_app_assoc.
  - destruct (Ascii.eqb c "{"); [|by eapply IH].
    destruct (skip =? 0); [|by eapply IH].
    destruct (truthy value); [|by eapply IH].
    destruct (IH _ _ _ _ (os ++ [OStr value]) σ Hr)
      as (os' & n & -> & Hos' & Hcells').
    { by rewrite fmap_app, Hos. }
    exists os', n. split; [done|]. split; [done|].
    rewrite Hcells', array_cells_app. unfold array_cells_with at 2. cbn.
    by rewrite app_nil_r.
Qed.

End loops_in.

Section variants_loop_in.
Variable mk : string → option (list item).
Variable mk_in : string → list nat → option (list obj * list nat).
Hypothesis mk_sim : ∀ s a σ, mk s = Some a →
  ∃ os n, mk_in s σ = Some (os, σ ++ replicate n 0%nat) ∧
          erase [] <$> os = a ∧ array_cells os = seq (length σ) n.

Lemma getVariants_loop_in_sim str :
  ∀ values value skip r oss σ,
    getVariants_loop mk str values value skip = Some r →
    fmap (M := list) (erase []) <$> oss = values →
    ∃ oss' n,
      getVariants_loop_in mk_in str oss value skip σ
        = Some (oss', r.2, σ ++ replicate n 0%nat) ∧
      fmap (M := list) (erase []) <$> oss' = r.1 ∧
      concat (array_cells <$> oss')
        = concat (array_cells <$> oss) ++ seq (length σ) n.
Proof.
  induction str as [|c str IH]; intros values value skip r oss σ.
  { cbn. intros [= <-] Hos. exists oss, 0%nat. cbn. by rewrite !app_nil_r. }
  cbn [getVariants_loop getVariants_loop_in]. intros Hr Hos.
  destruct (Ascii.eqb c "," && (skip =? 0)); [|by eapply IH].
  destruct (mk value) as [a|] eqn:Ha; [|done]. cbn [mbind option_bind] in Hr.
  destruct (mk_sim _ _ σ Ha) as (os & n1 & -> & Ho & Hcells).
  cbn [mbind option_bind].
  destruct (IH _ _ _ _ (oss ++ [os]) (σ ++ replicate n1 0%nat) Hr)
    as (oss' & n2 & -> & Hos' & Hcells').
  { by rewrite fmap_app, Hos, <- Ho. }
  exists oss', (n1 + n2)%nat. rewrite replicate_app_assoc. split; [done|].
  split; [done|]. rewrite Hcells', fmap_app, concat_app. cbn.
  rewrite app_nil_r, Hcells. apply seq_app_assoc.
Qed.

End variants_loop_in.

(** The constructors in the store build the objects of the constructors
    above, each [position] a new variable that holds 0; the variables are
    numbered in the order the constructors are called. *)
Lemma constructors_in_sim (fuel : nat) :
  (∀ str addEmpty a σ, getArray fuel str addEmpty = Some a →
     ∃ os n, getArray_in fuel str addEmpty σ
               = Some (os, σ ++ replicate n 0%nat) ∧
             erase [] <$> os = a ∧ array_cells os = seq (length σ) n) ∧
  (∀ str v σ, getVariants fuel str = Some v →
     ∃ o n, getVariants_in fuel str σ = Some (o, σ ++ replicate n 0%nat) ∧
            erase [] o = v ∧ cells o = seq (length σ) n).
Proof.
  induction fuel as [|fuel [IHa IHv]]; [done|]. split.
  - intros str addEmpty a σ. cbn [getArray getArray_in].
    destruct (getArray_loop (getVariants fuel) str [] "" 0)
      as [[values value]|] eqn:Hloop; [|done].
    destruct (getArray_loop_in_sim _ _ IHv _ _ _ _ _ [] σ Hloop eq_refl)
      as (os & n & -> & Hos & Hcells). cbn in Hos, Hcells.
    cbn [mbind option_bind]. intros [= <-].
    cbn [fst snd]. eexists _, n. split; [done|].
    destruct (truthy value || addEmpty).
    + rewrite fmap_app, Hos, array_cells_app, Hcells.
      unfold array_cells_with at 1. cbn. by rewrite app_nil_r.
    + done.
  - intros str v σ. cbn [getVariants getVariants_in new_variable].
    destruct (getVariants_loop (λ s, getArray fuel s true) str [] "" 0)
      as [[values value]|] eqn:Hloop; [|done].
    destruct (getVariants_loop_in_sim _ (λ s, getArray_in fuel s true)
                (λ s a σ, IHa s true a σ) _ _ _ _ _ [] (σ ++ [0%nat])
                Hloop eq_refl) as (oss & n1 & -> & Hoss & Hcells).
    cbn in Hoss, Hcells. cbn [mbind option_bind fst snd].
    destruct (getArray fuel value true) as [a|] eqn:Ha; [|done].
    destruct (IHa _ _ _ ((σ ++ [0%nat]) ++ replicate n1 0%nat) Ha)
      as (os & n2 & -> & Hos & Hcells2).
    cbn [mbind option_bind]. intros [= <-].
    exists (OVariants (oss ++ [os]) (length σ)), (S (n1 + n2)).
    split; [|split].
    + do 2 f_equal. rewrite replicate_app_assoc, <- app_assoc. done.
    + cbn [erase]. by rewrite fmap_app, Hoss, <- Hos.
    + cbn [cells seq]. f_equal.
      rewrite fmap_app, concat_app, Hcells. cbn. rewrite app_nil_r, Hcells2.
      rewrite !length_app, length_replicate. cbn [length].
      rewrite seq_app. f_equal; f_equal; lia.
Qed.

Lemma lookup_new_variable (σ : list nat) n c :
  c ∈ seq (length σ) n → (σ ++ replicate n 0%nat) !! c = Some 0%nat.
Proof.
  intros [Hge Hlt]%elem_of_seq. rewrite lookup_app_r by done.
  apply lookup_replicate_2. lia.
Qed.

Lemma getArray_in_fresh fuel str addEmpty arr σ :
  getArray fuel str addEmpty = Some arr →
  ∃ os n, getArray_in fuel str addEmpty σ
            = Some (os, σ ++ replicate n 0%nat) ∧
          erase (σ ++ replicate n 0%nat) <$> os = arr ∧
          array_cells os = seq (length σ) n.
Proof.
  intros Harr.
  destruct (proj1 (constructors_in_sim fuel) _ _ _ σ Harr)
    as (os & n & Hin & <- & Hcells).
  exists os, n. split; [done|]. split; [|done].
  apply erase_array_ext. intros c Hc. rewrite Hcells in Hc.
  by rewrite (lookup_new_variable _ _ _ Hc).
Qed.

(** ** One call of [next] on a generator *)

Lemma generator_pending_frame fuel σ σ' g pending :
  (length σ ≤ length σ')%nat →
  (∀ c, c ∈ generator_cells g → σ' !! c = σ !! c) →
  generator_pending fuel σ g pending → generator_pending fuel σ' g pending.
Proof.
  intros Hlen Hsame. destruct g as [str|arr|]; [done| |done].
  cbn. intros [[Hlt Hnd] (x & e & Hsteps)]. split.
  - split; [|done]. eapply Forall_impl; [done|]. cbn. lia.
  - exists x, e. by rewrite (erase_array_frame σ σ').
Qed.

Lemma generator_next_pending fuel σ g pending :
  generator_pending fuel σ g pending →
  ∃ g' σ',
    generator_next fuel g σ = Some (head pending, g', σ') ∧
    generator_pending fuel σ' g' (tail pending) ∧
    (length σ ≤ length σ')%nat ∧
    (∀ c, (c < length σ)%nat → c ∉ generator_cells g → σ' !! c = σ !! c) ∧
    (∀ c, c ∈ generator_cells g' →
          c ∈ generator_cells g ∨ (length σ ≤ c)%nat).
Proof.
  destruct g as [str|arr|]; cbn [generator_pending generator_next].
  - intros (a & Ha & ->).
    destruct (getArray_in_fresh _ _ _ _ σ Ha) as (os & n & -> & Hos & Hcells).
    cbn [mbind option_bind].
    assert (owned (σ ++ replicate n 0%nat) (array_cells os)) as Hown.
    { rewrite Hcells. split; [|apply NoDup_seq].
      apply Forall_forall. intros c [_ Hc]%elem_of_seq.
      rewrite length_app, length_replicate. lia. }
    rewrite array_current_in_erase by apply Hown. rewrite Hos.
    pose proof (fresh_array_steps a
                  (proj1 (constructors_fresh fuel) _ _ _ Ha)) as Hsteps.
    destruct (array_outputs a) as [|x rest] eqn:Hout.
    { by inversion Hsteps. }
    assert (array_current a = Some x) as -> by by inversion Hsteps.
    cbn [mbind option_bind head tail].
    eexists _, _. split; [done|]. split; [|split; [|split]].
    + split; [done|]. exists x, a. by rewrite Hos.
    + rewrite length_app. lia.
    + intros c Hc _. by rewrite lookup_app_l.
    + cbn. rewrite Hcells. intros c [Hc _]%elem_of_seq. by right.
  - intros [Hown (x & e & Hsteps)].
    pose proof (array_next_in_erase arr σ Hown) as Hsim.
    inversion Hsteps as [a y e' Hcur Hnxt | a y a1 l e' Hcur Hnxt Hrest]; subst.
    + rewrite Hnxt in Hsim.
      destruct (array_next_in arr σ) as [[more σ']|]; [|done].
      destruct Hsim as ([= <- _] & Hlen & Hframe). cbn [mbind option_bind].
      exists Finished, σ'. split; [done|]. split; [done|].
      split; [lia|]. split; [by intros c _ Hc; apply Hframe|].
      by intros c ?%elem_of_nil.
    + rewrite Hnxt in Hsim.
      destruct (array_next_in arr σ) as [[more σ']|]; [|done].
      destruct Hsim as ([= <- ->] & Hlen & Hframe). cbn [mbind option_bind].
      pose proof (owned_length _ _ _ Hlen Hown) as Hown'.
      rewrite array_current_in_erase by apply Hown'.
      destruct pending as [|z rest]; [by inversion Hrest|].
      assert (array_current (erase σ' <$> arr) = Some z) as ->
        by by inversion Hrest.
      cbn [mbind option_bind head tail].
      exists (Suspended arr), σ'. split; [done|]. split; [|split; [lia|]].
      * split; [done|]. by exists z, e.
      * split; [by intros c _ Hc; apply Hframe|]. intros c Hc. by left.
  - intros ->. exists Finished, σ. repeat split; [done..|].
    by intros c ?%elem_of_nil.
Qed.

Lemma results_S (l : list string) (k : nat) :
  results l (S k) = head l :: results (tail l) k.
Proof. by destruct l. Qed.

(** ** Two generators *)

Lemma generator_cells_lt fuel σ g pending :
  generator_pending fuel σ g pending →
  Forall (λ c, (c < length σ)%nat) (generator_cells g).
Proof. destruct g; [done| |done]. by intros [[Hlt _] _]. Qed.

Lemma run_two_results fuel (schedule : list bool) :
  ∀ g1 g2 σ p1 p2,
    generator_pending fuel σ g1 p1 → generator_pending fuel σ g2 p2 →
    (∀ c, c ∈ generator_cells g1 → c ∉ generator_cells g2) →
    run_two fuel schedule g1 g2 σ =
      Some (results p1 (calls true schedule),
            results p2 (calls false schedule)).
Proof.
  induction schedule as [|first schedule IH];
    intros g1 g2 σ p1 p2 H1 H2 Hdis; [done|].
  pose proof (generator_cells_lt _ _ _ _ H1) as Hlt1.
  pose proof (generator_cells_lt _ _ _ _ H2) as Hlt2.
  cbn [run_two calls]. destruct first; cbn [Bool.eqb Nat.add].
  - destruct (generator_next_pending _ _ _ _ H1)
      as (g1' & σ' & -> & H1' & Hlen & Hframe & Hcells).
    cbn [mbind option_bind].
    rewrite (IH g1' g2 σ' (tail p1) p2), results_S; [done|done|..].
    + eapply generator_pending_frame; [done| |done]. intros c Hc.
      apply Hframe; [by apply (proj1 (Forall_forall _ _) Hlt2)|].
      intros Hc1. by apply (Hdis c).
    + intros c [Hc|Hc]%Hcells; [by apply Hdis|]. intros Hc2.
      apply (proj1 (Forall_forall _ _) Hlt2) in Hc2. cbn beta in Hc2. lia.
  - destruct (generator_next_pending _ _ _ _ H2)
      as (g2' & σ' & -> & H2' & Hlen & Hframe & Hcells).
    cbn [mbind option_bind].
    rewrite (IH g1 g2' σ' p1 (tail p2)), results_S; [done| |done|].
    + eapply generator_pending_frame; [done| |done]. intros c Hc.
      apply Hframe; [by apply (proj1 (Forall_forall _ _) Hlt1)|].
      intros Hc2. by apply (Hdis c).
    + intros c Hc1 [Hc|Hc]%Hcells; [by apply (Hdis c)|].
      apply (proj1 (Forall_forall _ _) Hlt1) in Hc1. cbn beta in Hc1. lia.
Qed.

(** Two calls on "x{a,b{c,d}}", the second generator first asked when the
    first has given two strings: it starts with "xa". *)
Example run_two_interleaved :
  run_two 20 [true; true; false; true; false; false; true; false]
          (Created "x{a,b{c,d}}") (Created "x{a,b{c,d}}") [] =
    Some ([Some "xa"; Some "xbc"; Some "xbd"; None],
          [Some "xa"; Some "xbc"; Some "xbd"; None]).
Proof. vm_compute. reflexivity. Qed.

(** ** The first combination *)

Lemma head_cross (xs ys : list string) x y :
  head xs = Some x → head ys = Some y → head (cross xs ys) = Some (x +:+ y).
Proof.
  destruct xs as [|x' xs], ys as [|y' ys]; try done.
  by intros [= ->] [= ->].
Qed.

Lemma template_odometer_head (t : list piece) :
  Forall (λ p, head (odometer p) = Some (first_choice p)) t →
  head (template_odometer t) = Some (template_first t).
Proof.
  induction 1 as [|p t Hp _ IH]; [done|].
  rewrite template_odometer_cons. by apply head_cross.
Qed.

Lemma odometer_head (p : piece) :
  ∀ inner, wf_piece inner p = true →
           head (odometer p) = Some (first_choice p).
Proof.
  induction p as [s | alts IH] using piece_ind; intros inner; [done|].
  cbn [wf_piece odometer first_choice].
  intros [Hne%negb_true_iff%bool_decide_eq_false Hwf]%andb_true_iff.
  destruct alts as [|t alts]; [done|].
  apply Forall_cons in IH as [IHt _]. cbn in Hwf.
  apply andb_true_iff in Hwf as [Hwft _].
  rewrite fmap_cons. cbn [concat].
  assert (head (template_odometer t) = Some (template_first t)) as Hhead.
  { apply template_odometer_head, Forall_forall. intros q Hq.
    apply (proj1 (Forall_forall _ _) IHt q Hq true).
    by apply (proj1 (forallb_forall _ _) Hwft), list_elem_of_In. }
  destruct (template_odometer t); [done|]. done.
Qed.

(** C9: on every string, balanced or not, [expandBraces] yields a finite
    sequence [l] that is not empty, the same at every call that runs to its
    end; when the string is the text of a well-formed template, [l] starts
    with the first combination, every group at its first alternative. Two
    generators got from two calls on the string, whatever the store they
    start in and in whatever order their [next] is called, both give the
    strings of [l] from the first on, one at each call, then done: what one
    call has enumerated does not move the other, whose objects have
    variables [position] of their own. *)
Theorem expandBraces_restartable (str : string) :
  ∃ l, yields str l ∧ l ≠ [] ∧
       (∀ fuel l', expandBraces fuel str = Some l' → l' = l) ∧
       (∀ t, wf_template t = true → render_template t = str →
             head l = Some (template_first t)) ∧
       ∃ n, ∀ fuel schedule σ, (n ≤ fuel)%nat →
         run_two fuel schedule (Created str) (Created str) σ =
           Some (results l (calls true schedule),
                 results l (calls false schedule)).
Proof.
  destruct (getArray_returns str false) as (arr & Hfresh & Harr).
  assert (yields str (array_outputs arr)) as Hl
    by by eapply yields_getArray, Harr.
  exists (array_outputs arr). split; [done|]. split.
  { eapply steps_nonempty. by apply fresh_array_steps. }
  split.
  { intros fuel l' Hl'. by eapply yields_unique; [eapply yields_intro|]. }
  split.
  { intros t Hwf <-.
    rewrite (getArray_wf_template _ _ _ _ Hwf (Harr _ (Nat.le_refl _))).
    apply template_odometer_head, Forall_forall. intros p Hp.
    apply (odometer_head p false).
    by apply (proj1 (forallb_forall _ _) Hwf), list_elem_of_In. }
  exists (2 * String.length str + 1)%nat. intros fuel schedule σ Hfuel.
  apply run_two_results; [| |by intros c ?%elem_of_nil];
    exists arr; split; auto.
Qed.
